(** * A1miniNoter: the three-track allocator of [main.js]

    A shallow embedding of [MidiConverter.processMidi] and the properties of
    its allocation pass.

    Modelling conventions.
    - JavaScript numbers that carry seconds ([time], [duration], [endTime])
      and the normalised [velocity] are exact rationals [Q]; the literals
      [1e-6] and [0.01] are the rationals 1/1000000 and 1/100.  IEEE rounding,
      NaN and the infinities of those fields are outside the model, so a
      property that the rounding of a sum or of a difference decides, as
      the bound of 1e-6 on the common part of two notes of a track, is not
      among those stated here.
    - Note objects live in a store ([heap]) and arrays hold addresses, so the
      in-place shortening of an already placed note is seen through every
      array that holds it ([trackState] and [trackMap] share their objects).
    - An array read out of range, [undefined] in JavaScript, yields a
      default value; [shape] and [notes_inv] show that the loop never reads
      out of range.
    - [console] output is not modelled; the [assigned] flag of every loop
      iteration is returned instead. *)

From Stdlib Require Import QArith Lqa.
From Stdlib Require Import Sorting.Sorted.
From stdpp Require Import base option list gmap strings.

Local Open Scope Q_scope.

(** ** JavaScript numbers as seen by [Math.max] and [Math.min] *)

Module JS.

(** The values the pitch comparison can meet: an integer pitch, the two
    infinities ([Math.max()] and [Math.min()] of no argument) and NaN. *)
Inductive num : Type :=
| NaN
| NegInf
| Fin (z : Z)
| PosInf.

(** A value read from an object: a number, or [undefined] for a property
    that does not exist. *)
Inductive value : Type :=
| Undefined
| Num (x : num).

(** ToNumber: [undefined] converts to NaN. *)
Definition to_number (v : value) : num :=
  match v with
  | Undefined => NaN
  | Num x => x
  end.

(** The larger of two numbers, as [Math.max] sees them. *)
Definition max2 (a b : num) : num :=
  match a, b with
  | NaN, _ | _, NaN => NaN
  | PosInf, _ | _, PosInf => PosInf
  | NegInf, x | x, NegInf => x
  | Fin x, Fin y => Fin (Z.max x y)
  end.

(** The smaller of two numbers, as [Math.min] sees them. *)
Definition min2 (a b : num) : num :=
  match a, b with
  | NaN, _ | _, NaN => NaN
  | NegInf, _ | _, NegInf => NegInf
  | PosInf, x | x, PosInf => x
  | Fin x, Fin y => Fin (Z.min x y)
  end.

(** [Math.max(...xs)]: -Infinity for no argument, NaN as soon as one
    argument converts to NaN. *)
Definition Math_max (xs : list value) : num :=
  foldr (fun v acc => max2 (to_number v) acc) NegInf xs.

(** [Math.min(...xs)]: +Infinity for no argument. *)
Definition Math_min (xs : list value) : num :=
  foldr (fun v acc => min2 (to_number v) acc) PosInf xs.

(** [a === b] on numbers: NaN differs from everything, itself included. *)
Definition strict_eq (a b : num) : bool :=
  match a, b with
  | Fin x, Fin y => Z.eqb x y
  | PosInf, PosInf | NegInf, NegInf => true
  | _, _ => false
  end.

(** [Array.prototype.sort] is stable; [le x y] says that the comparator
    does not put [y] strictly before [x]. *)
Fixpoint insert_sorted {A} (le : A -> A -> bool) (x : A) (l : list A) : list A :=
  match l with
  | [] => [x]
  | y :: r => if le x y then x :: y :: r else y :: insert_sorted le x r
  end.

(** [l.sort(cmp)].  A comparator that orders its arguments consistently,
    as the two of [processMidi] do, leaves a stable sort one result only. *)
Definition sort {A} (cmp : A -> A -> Q) (l : list A) : list A :=
  foldr (insert_sorted (fun x y => Qle_bool (cmp x y) 0)) [] l.

(** [xs.filter((_, i) => keep i)] *)
Definition filter_index {A} (keep : nat -> bool) (xs : list A) : list A :=
  omap (fun p : nat * A => if keep p.1 then Some p.2 else None)
       (imap (fun i x => (i, x)) xs).

(** [xs.indexOf(x)], with [length xs] standing for the result -1. *)
Fixpoint indexOf (x : string) (xs : list string) : nat :=
  match xs with
  | [] => O
  | y :: r => if String.eqb y x then O else S (indexOf x r)
  end.

End JS.

(** ** Notes *)

(** What the loader hands over for one note of a source track. *)
Record RawNote : Type := mkRawNote {
  raw_midi : Z;
  raw_time : Q;
  raw_duration : Q;
  raw_velocity : Q
}.

(** The object built for every note in [processMidi]. *)
Record Note : Type := mkNote {
  midi : Z;
  time : Q;
  duration : Q;
  velocity : Q;
  endTime : Q;
  origTrack : nat
}.

#[export] Instance Note_inhabited : Inhabited Note :=
  populate (mkNote 0 0 0 0 0 O).

(** Line 17; the code never reads it. *)
Definition MAX_TRACKS : nat := 3.

(** Line 82. *)
Definition TRACK_NAMES : list string := ["Main Theme"; "Chord"; "Base"]%string.

(** The tolerance [1e-6] of the overlap test. *)
Definition eps : Q := 1 # 1000000.

(** The floor [0.01] under which no note is shortened. *)
Definition min_duration : Q := 1 # 100.

(** [x > y] on numbers *)
Definition Qgtb (x y : Q) : bool := negb (Qle_bool x y).

(** [x < y] on numbers *)
Definition Qltb (x y : Q) : bool := negb (Qle_bool y x).

(** The object literal of the [track.notes.map] callback. *)
Definition note_of_raw (trackIdx : nat) (r : RawNote) : Note :=
  {| midi := raw_midi r;
     time := raw_time r;
     duration := raw_duration r;
     velocity := raw_velocity r;
     endTime := raw_time r + raw_duration r;
     origTrack := trackIdx |}.

(** [midi.tracks.flatMap((track, trackIdx) => track.notes.map(...))] *)
Definition collectNotes (tracks : list (list RawNote)) : list Note :=
  concat (imap (fun trackIdx notes => map (note_of_raw trackIdx) notes) tracks).

(** [(a, b) => a.time - b.time || b.midi - a.midi] *)
Definition compareNotes (a b : Note) : Q :=
  let d := time a - time b in
  if Qeq_bool d 0 then inject_Z (midi b - midi a) else d.

(** Lines 88-97: [allNotes]. *)
Definition allNotesOf (tracks : list (list RawNote)) : list Note :=
  JS.sort compareNotes (collectNotes tracks).

(** ** The allocation state *)

(** Addresses of the store. *)
Abbreviation addr := nat (only parsing).

(** The store of note objects, [trackState], [trackMap] and the affinity
    map [origTrackToTarget]. *)
Record State : Type := mkState {
  heap : list Note;
  trackState : list (list addr);
  trackMap : gmap string (list addr);
  origTrackToTarget : gmap nat nat
}.

(** Reading an object of the store. *)
Definition deref (h : list Note) (r : addr) : Note := h !!! r.

(** The state before the loop: the objects of [allNotes] occupy the
    addresses [0 .. length allNotes - 1], the three arrays of both
    [trackMap] and [trackState] are empty, no affinity is recorded. *)
Definition init_state (allNotes : list Note) : State :=
  {| heap := allNotes;
     trackState := map (fun _ => []) TRACK_NAMES;
     trackMap := list_to_map (map (fun name => (name, [])) TRACK_NAMES);
     origTrackToTarget := ∅ |}.

(** [!(note.endTime <= n.time + 1e-6 || note.time >= n.endTime - 1e-6)] *)
Definition overlaps (note n : Note) : bool :=
  negb (Qle_bool (endTime note) (time n + eps)
        || Qle_bool (endTime n - eps) (time note)).

(** [notesArr.find(n => overlaps note n)] *)
Definition find_overlap (h : list Note) (note : Note) (notesArr : list addr)
  : option addr :=
  List.find (fun r => overlaps note (deref h r)) notesArr.

(** [notesArr.push(x); trackMap.get(trackName).push(x)] with
    [notesArr = trackState[idx]]. *)
Definition push_note (idx : nat) (trackName : string) (x : addr) (st : State)
  : State :=
  {| heap := heap st;
     trackState := alter (fun l => l ++ [x]) idx (trackState st);
     trackMap := alter (fun l => l ++ [x]) trackName (trackMap st);
     origTrackToTarget := origTrackToTarget st |}.

(** [if (!origTrackToTarget.has(o)) origTrackToTarget.set(o, idx)] *)
Definition record_affinity (o idx : nat) (st : State) : State :=
  {| heap := heap st;
     trackState := trackState st;
     trackMap := trackMap st;
     origTrackToTarget :=
       match origTrackToTarget st !! o with
       | Some _ => origTrackToTarget st
       | None => <[o := idx]> (origTrackToTarget st)
       end |}.

(** A new object takes the next free address. *)
Definition alloc (x : Note) (st : State) : addr * State :=
  (length (heap st),
   {| heap := heap st ++ [x];
      trackState := trackState st;
      trackMap := trackMap st;
      origTrackToTarget := origTrackToTarget st |}).

(** [overlap.duration = d; overlap.endTime = overlap.time + d] *)
Definition shortened (d : Q) (o : Note) : Note :=
  {| midi := midi o; time := time o; duration := d; velocity := velocity o;
     endTime := time o + d; origTrack := origTrack o |}.

(** The assignment above, on the object at address [r]. *)
Definition shorten (r : addr) (d : Q) (st : State) : State :=
  {| heap := alter (shortened d) r (heap st);
     trackState := trackState st;
     trackMap := trackMap st;
     origTrackToTarget := origTrackToTarget st |}.

(** The guard of the first truncation rule (line 164). *)
Definition starts_before (note overlap : Note) : bool :=
  Qltb (time note) (time overlap) && Qgtb (endTime note) (time overlap + eps).

(** The guard of the second truncation rule (line 182). *)
Definition spans_past (note overlap : Note) : bool :=
  Qgtb (endTime overlap) (time note + eps)
  && Qgtb (endTime overlap) (endTime note + eps)
  && Qltb (time overlap) (time note - eps).

(** The second truncation rule, lines 182-198: [None] when it does not
    apply. *)
Definition truncate_existing (idx : nat) (trackName : string) (a ov : addr)
    (st : State) : option State :=
  let note := deref (heap st) a in
  let overlap := deref (heap st) ov in
  if spans_past note overlap then
    let overlapNewDuration := time note - time overlap in
    if Qgtb overlapNewDuration min_duration then
      Some (record_affinity (origTrack note) idx
              (push_note idx trackName a (shorten ov overlapNewDuration st)))
    else None
  else None.

(** [{ ...note, duration: newDuration, endTime: overlap.time }] *)
Definition truncated (note : Note) (newDuration : Q) (overlap : Note) : Note :=
  {| midi := midi note; time := time note; duration := newDuration;
     velocity := velocity note; endTime := time overlap;
     origTrack := origTrack note |}.

(** The first truncation rule, lines 164-180: [None] when it does not
    apply, in which case the code goes on to the second rule. *)
Definition truncate_incoming (idx : nat) (trackName : string) (a ov : addr)
    (st : State) : option State :=
  let note := deref (heap st) a in
  let overlap := deref (heap st) ov in
  if starts_before note overlap then
    let newDuration := time overlap - time note in
    if Qgtb newDuration min_duration then
      let '(t, st1) := alloc (truncated note newDuration overlap) st in
      Some (record_affinity (origTrack note) idx (push_note idx trackName t st1))
    else None
  else None.

(** One candidate track of the scan, lines 142-199.  [Some st'] is
    [assigned = true; break], [None] is the fall through to the next
    candidate. *)
Definition try_track (idx : nat) (trackName : string) (a : addr) (st : State)
  : option State :=
  let note := deref (heap st) a in
  let notesArr : list addr := trackState st !!! idx in
  match find_overlap (heap st) note notesArr with
  | None =>
      Some (record_affinity (origTrack note) idx (push_note idx trackName a st))
  | Some ov =>
      match truncate_incoming idx trackName a ov st with
      | Some st' => Some st'
      | None => truncate_existing idx trackName a ov st
      end
  end.

(** [for (let i = 0; i < tryOrder.length; i++)], lines 137-200; the result
    carries [assigned]. *)
Fixpoint scan (preferIdx : option nat) (a : addr) (tryOrder : list string)
    (st : State) : State * bool :=
  match tryOrder with
  | [] => (st, false)
  | trackName :: rest =>
      let idx := JS.indexOf trackName TRACK_NAMES in
      if bool_decide (preferIdx = Some idx) then scan preferIdx a rest st
      else
        match try_track idx trackName a st with
        | Some st' => (st', true)
        | None => scan preferIdx a rest st
        end
  end.

(** Lines 114-117.  [notesAtTime.map(n => n.time).map(n => n.midi)] reads
    the property [midi] of a number, which is [undefined]. *)
Definition idxByPitch (allNotes : list Note) (note : Note) : nat :=
  let notesAtTime := List.filter (fun n => Qeq_bool (time n) (time note)) allNotes in
  if JS.strict_eq (JS.Fin (midi note))
       (JS.Math_max (map (fun n => JS.Num (JS.Fin (midi n))) notesAtTime))
  then 0%nat
  else if JS.strict_eq (JS.Fin (midi note))
            (JS.Math_min (map (fun _ : Q => JS.Undefined) (map time notesAtTime)))
  then 2%nat
  else 1%nat.

(** [[tryOrder[0], tryOrder[k]] = [tryOrder[k], tryOrder[0]]] *)
Definition swap0 (k : nat) (tryOrder : list string) : list string :=
  let x0 := tryOrder !!! 0%nat in
  let xk := tryOrder !!! k in
  <[k := x0]> (<[0%nat := xk]> tryOrder).

(** Lines 107-119. *)
Definition tryOrderOf (allNotes : list Note) (preferIdx : option nat)
    (note : Note) : list string :=
  match preferIdx with
  | Some p =>
      (TRACK_NAMES !!! p) :: JS.filter_index (fun i => negb (Nat.eqb i p)) TRACK_NAMES
  | None =>
      let k := idxByPitch allNotes note in
      if negb (Nat.eqb k 0) then swap0 k TRACK_NAMES else TRACK_NAMES
  end.

(** Lines 122-133: the test of the preferred track alone. *)
Definition fast_path (preferIdx : option nat) (a : addr) (st : State)
  : State * bool :=
  match preferIdx with
  | Some p =>
      let trackName := TRACK_NAMES !!! p in
      let notesArr : list addr := trackState st !!! p in
      match find_overlap (heap st) (deref (heap st) a) notesArr with
      | None => (push_note p trackName a st, true)
      | Some _ => (st, false)
      end
  | None => (st, false)
  end.

(** The body of [for (const note of allNotes)], lines 105-204, for the
    note at address [a]; [n] is [allNotes.length], and the objects of
    [allNotes] are the first [n] of the store. *)
Definition step (n : nat) (a : addr) (st : State) : State * bool :=
  let note := deref (heap st) a in
  let preferIdx := origTrackToTarget st !! origTrack note in
  let tryOrder := tryOrderOf (take n (heap st)) preferIdx note in
  let '(st1, assigned) := fast_path preferIdx a st in
  if assigned then (st1, true) else scan preferIdx a tryOrder st1.

(** The loop over the addresses [todo]; the second component lists the
    notes that ended with [assigned = false]. *)
Fixpoint allocate (n : nat) (todo : list addr) (st : State) (dropped : list addr)
  : State * list addr :=
  match todo with
  | [] => (st, dropped)
  | a :: rest =>
      let '(st', assigned) := step n a st in
      allocate n rest st' (if assigned then dropped else dropped ++ [a])
  end.

(** Lines 101-205 on the sorted notes. *)
Definition run (allNotes : list Note) : State * list addr :=
  allocate (length allNotes) (seq 0 (length allNotes)) (init_state allNotes) [].

(** Lines 208-210: [notes.sort((a, b) => a.time - b.time)] on every array
    of [trackMap], then the notes the returned arrays hold. *)
Definition finalize (st : State) : gmap string (list Note) :=
  (fun refs : list addr =>
     map (deref (heap st))
         (JS.sort (fun x y => time (deref (heap st) x) - time (deref (heap st) y)) refs))
  <$> trackMap st.

(** [processMidi(midi)], on the note lists of [midi.tracks]. *)
Definition processMidi (tracks : list (list RawNote)) : gmap string (list Note) :=
  finalize (run (allNotesOf tracks)).1.

(** The notes of [allNotes] that no track received. *)
Definition droppedNotes (tracks : list (list RawNote)) : list addr :=
  (run (allNotesOf tracks)).2.

(** The output track [k] of a result, in the order of [saveOutput]. *)
Definition outputTrack (out : gmap string (list Note)) (k : nat) : list Note :=
  default [] (out !! (TRACK_NAMES !!! k)).

(** ** The vocabulary of the properties *)

(** Any two entries of [l] at different positions are related by [R]. *)
Definition pairwise {A} (R : A -> A -> Prop) (l : list A) : Prop :=
  forall i j x y, i <> j -> l !! i = Some x -> l !! j = Some y -> R x y.

(** The order of the comparator of line 97: earlier start first, and at
    the same start the higher pitch first. *)
Definition note_le (a b : Note) : Prop :=
  time a < time b \/ (time a == time b /\ (midi b <= midi a)%Z).

(** The output-track index [idx] carries the name [name]. *)
Definition slot (idx : nat) (name : string) : Prop :=
  TRACK_NAMES !! idx = Some name.

(** Every affinity entry names one of the three output tracks. *)
Definition affinity_ok (st : State) : Prop :=
  forall o p, origTrackToTarget st !! o = Some p -> (p < 3)%nat.

(** The three ways in which the note at address [a] reaches the arrays
    [trackState[idx]] and [trackMap.get(name)]. *)
Inductive placed (idx : nat) (name : string) (a : addr) (st : State)
  : State -> Prop :=
| placed_verbatim :
    find_overlap (heap st) (deref (heap st) a) (trackState st !!! idx) = None ->
    placed idx name a st
      (record_affinity (origTrack (deref (heap st) a)) idx
         (push_note idx name a st))
| placed_truncated ov :
    find_overlap (heap st) (deref (heap st) a) (trackState st !!! idx) = Some ov ->
    starts_before (deref (heap st) a) (deref (heap st) ov) = true ->
    Qgtb (time (deref (heap st) ov) - time (deref (heap st) a)) min_duration
      = true ->
    placed idx name a st
      (record_affinity (origTrack (deref (heap st) a)) idx
         (push_note idx name (length (heap st))
            (alloc (truncated (deref (heap st) a)
                      (time (deref (heap st) ov) - time (deref (heap st) a))
                      (deref (heap st) ov)) st).2))
| placed_shortening ov :
    find_overlap (heap st) (deref (heap st) a) (trackState st !!! idx) = Some ov ->
    spans_past (deref (heap st) a) (deref (heap st) ov) = true ->
    Qgtb (time (deref (heap st) a) - time (deref (heap st) ov)) min_duration
      = true ->
    placed idx name a st
      (record_affinity (origTrack (deref (heap st) a)) idx
         (push_note idx name a
            (shorten ov (time (deref (heap st) a) - time (deref (heap st) ov))
               st))).

(** The outcome of one iteration: the note reached a track, or nothing
    changed. *)
Definition outcome (a : addr) (st st' : State) (assigned : bool) : Prop :=
  if assigned
  then exists idx name,
         placed idx name a st st' /\ (affinity_ok st -> slot idx name)
  else st' = st.

(** [trackState] has three arrays, [trackMap] maps the three names to
    arrays of the same content, and the affinity map names tracks. *)
Record shape (st : State) : Prop := {
  shape_tracks : length (trackState st) = 3%nat;
  shape_map : forall k name,
    slot k name -> trackMap st !! name = trackState st !! k;
  shape_keys : forall name,
    is_Some (trackMap st !! name) -> name ∈ TRACK_NAMES;
  shape_affinity : affinity_ok st
}.

(** [x] is the input note [y], possibly shortened, and never shortened to
    0.01 seconds or less. *)
Definition derives (y x : Note) : Prop :=
  midi x = midi y /\ time x = time y /\ velocity x = velocity y /\
  origTrack x = origTrack y /\ duration x <= duration y /\
  (duration x = duration y \/ min_duration < duration x).

(** No two entries of the array [l] overlap. *)
Definition free (h : list Note) (l : list addr) : Prop :=
  pairwise (fun r s => overlaps (deref h r) (deref h s) = false) l.

(** Start times never decrease along [l]. *)
Definition time_sorted (l : list Note) : Prop :=
  forall b a y x, (b <= a)%nat -> l !! b = Some y -> l !! a = Some x ->
    time y <= time x.

(** What holds of the store and of the arrays once the first [i] notes
    of [allNotes] have been processed. *)
Record notes_inv (allNotes : list Note) (i : nat) (st : State) : Prop := {
  inv_pending : forall a, (i <= a)%nat -> (a < length allNotes)%nat ->
    heap st !! a = allNotes !! a;
  inv_size : length (heap st) = length allNotes;
  inv_refs : forall k l r, trackState st !! k = Some l -> r ∈ l ->
    (r < length (heap st))%nat /\
    (r < i \/ length allNotes <= r)%nat /\
    exists b y, (b < i)%nat /\ allNotes !! b = Some y /\
                time (deref (heap st) r) = time y;
  inv_free : forall k l, trackState st !! k = Some l -> free (heap st) l;
  inv_wf : forall r x, heap st !! r = Some x ->
    endTime x == time x + duration x;
  inv_prov : forall r x, heap st !! r = Some x ->
    exists y, y ∈ allNotes /\ derives y x;
  inv_keys : forall a x y, heap st !! a = Some x -> allNotes !! a = Some y ->
    time x = time y /\ midi x = midi y
}.

(** The number of notes the three arrays hold. *)
Definition placedCount (st : State) : nat := length (concat (trackState st)).

(** The number of notes on the three returned tracks. *)
Definition totalNotes (out : gmap string (list Note)) : nat :=
  (length (outputTrack out 0) + length (outputTrack out 1)
   + length (outputTrack out 2))%nat.

(** The number of notes of the input. *)
Definition inputCount (tracks : list (list RawNote)) : nat :=
  sum_list (length <$> tracks).

(** The notes of three source tracks: the last note of the first track
    meets its own track busy and both other tracks taken by notes that end
    before it does. *)
Definition crowded : list (list RawNote) :=
  [[mkRawNote 72 0 2 (1 # 2); mkRawNote 70 1 2 (1 # 2)];
   [mkRawNote 60 (1 # 2) 2 (1 # 2)];
   [mkRawNote 50 (1 # 2) 2 (1 # 2)]].

(** A store and a track for trying the rules by hand: the object at
    address 0 is on Main Theme. *)
Definition one_placed (placed_note incoming : Note) : State :=
  {| heap := [placed_note; incoming];
     trackState := [[0%nat]; []; []];
     trackMap := list_to_map [("Main Theme"%string, [0%nat]);
                              ("Chord"%string, []); ("Base"%string, [])];
     origTrackToTarget := ∅ |}.

(** The pitch of [note] is the highest among the notes of [allNotes] that
    start exactly when [note] does. *)
Definition highest_at_start (allNotes : list Note) (note : Note) : Prop :=
  (exists n, n ∈ allNotes /\ time n == time note /\ midi n = midi note) /\
  (forall n, n ∈ allNotes -> time n == time note -> (midi n <= midi note)%Z).

(** All that a call returns: the three tracks in the order of
    [saveOutput], and the notes dropped. *)
Definition result (tracks : list (list RawNote))
  : list Note * list Note * list Note * list addr :=
  (outputTrack (processMidi tracks) 0, outputTrack (processMidi tracks) 1,
   outputTrack (processMidi tracks) 2, droppedNotes tracks).

(** The same two notes with nothing else ([alone]), and with the two
    other tracks taken from 0.0 to 5.0 ([spanned]). *)
Definition alone : list (list RawNote) :=
  [[mkRawNote 72 0 2 (1 # 2); mkRawNote 70 1 2 (1 # 2)]].

(** See [alone]. *)
Definition spanned : list (list RawNote) :=
  [[mkRawNote 72 0 2 (1 # 2); mkRawNote 70 1 2 (1 # 2)];
   [mkRawNote 60 0 5 (1 # 2)];
   [mkRawNote 50 0 5 (1 # 2)]].


(** ** More vocabulary: the state along a call, and what it keeps *)

(** The state that iteration [i] of a call finds. *)
Definition stateBefore (tracks : list (list RawNote)) (i : nat) : State :=
  (allocate (length (allNotesOf tracks)) (seq 0 i)
     (init_state (allNotesOf tracks)) []).1.

(** The notes dropped by then, in the order of their turns. *)
Definition droppedBefore (tracks : list (list RawNote)) (i : nat) : list addr :=
  (allocate (length (allNotesOf tracks)) (seq 0 i)
     (init_state (allNotesOf tracks)) []).2.


(** The addresses of [l] are in the order of the start times of their
    objects. *)
Definition time_ordered (h : list Note) (l : list addr) : Prop :=
  StronglySorted (fun r s => time (deref h r) <= time (deref h s)) l.

(** What the arrays keep besides [notes_inv]: no address is held twice,
    every array is in the order of the start times, and the object at an
    address of [allNotes] is the note that was built there, possibly
    shortened. *)
Record tracks_inv (allNotes : list Note) (st : State) : Prop := {
  tinv_nodup : NoDup (concat (trackState st));
  tinv_ordered : forall k l, trackState st !! k = Some l ->
    time_ordered (heap st) l;
  tinv_prov : forall r x y, heap st !! r = Some x -> allNotes !! r = Some y ->
    derives y x
}.

(** The affinity map and the arrays agree: a bound origin has a note on
    the track it is bound to, and the origin of a placed note is bound. *)
Record affinity_inv (st : State) : Prop := {
  ainv_sound : forall o p, origTrackToTarget st !! o = Some p ->
    exists l r, trackState st !! p = Some l /\ r ∈ l /\
                origTrack (deref (heap st) r) = o;
  ainv_complete : forall k l r, trackState st !! k = Some l -> r ∈ l ->
    is_Some (origTrackToTarget st !! origTrack (deref (heap st) r))
}.

(** A line of two notes on one source track and a third on another, none
    overlapping another. *)
Definition relay : list (list RawNote) :=
  [[mkRawNote 60 0 1 (1 # 2); mkRawNote 62 1 1 (1 # 2)];
   [mkRawNote 64 2 1 (1 # 2)]].

(** A placed note has the duration it came with, or another note of its
    array starts after it does and before the end it came with. *)
Definition cut_by_a_later_start (allNotes : list Note) (st : State) : Prop :=
  forall k l r y, trackState st !! k = Some l -> r ∈ l ->
    allNotes !! r = Some y ->
    duration (deref (heap st) r) = duration y \/
    exists s, s ∈ l /\
      time (deref (heap st) r) < time (deref (heap st) s) /\
      time (deref (heap st) s) < time y + duration y.


(** ** The program around [processMidi] *)

(** [run], [validateInput], [loadMidiFile] and [saveOutput] talk to the
    file system and to the MIDI library.  The answers of the file system
    are a parameter, [World]; what is asked of the library is recorded as a
    list of requests, each of which is taken to return; what goes to the
    console is left out, and with it the only use of [options.verbose].
    [setupCLI] is the command line parser's: a run starts from the options
    it returned. *)

(** The values that count as true in [v || d] and [if (v)], among the
    numbers and [undefined]: all but [undefined], NaN and 0. *)
Definition truthy (v : JS.value) : bool :=
  match v with
  | JS.Undefined => false
  | JS.Num JS.NaN => false
  | JS.Num (JS.Fin z) => negb (z =? 0)%Z
  | JS.Num _ => true
  end.

(** [v || d] *)
Definition or_else (v d : JS.value) : JS.value := if truthy v then v else d.

Definition DEFAULT_TICKS_PER_BEAT : JS.value := JS.Num (JS.Fin 480).

(** [s.endsWith(suffix)]: the last characters of [s], as many as [suffix]
    has, are [suffix]. *)
Definition endsWith (s suffix : string) : bool :=
  let n := String.length s in
  let m := String.length suffix in
  (m <=? n)%nat && String.eqb (String.substring (n - m) m s) suffix.

(** The events of the header of a parsed file, with the properties
    [saveOutput] reads of them; [V] is the type of their values, which the
    program only passes on. *)
Record Tempo (V : Type) : Type := mkTempo { bpm : V; tick : V }.
Record TimeSignature (V : Type) : Type :=
  mkTimeSignature { ts_ticks : V; timeSignature : V }.
Record KeySignature (V : Type) : Type := mkKeySignature { ks_ticks : V; key : V }.

Arguments mkTempo {V}.
Arguments bpm {V}.
Arguments tick {V}.
Arguments mkTimeSignature {V}.
Arguments ts_ticks {V}.
Arguments timeSignature {V}.
Arguments mkKeySignature {V}.
Arguments ks_ticks {V}.
Arguments key {V}.

(** [midi.header]; an event list that is absent is [None]. *)
Record Header (V : Type) : Type := mkHeader {
  ticksPerBeat : JS.value;
  tempos : option (list (Tempo V));
  timeSignatures : option (list (TimeSignature V));
  keySignatures : option (list (KeySignature V))
}.

Arguments mkHeader {V}.
Arguments ticksPerBeat {V}.
Arguments tempos {V}.
Arguments timeSignatures {V}.
Arguments keySignatures {V}.

(** A parsed file: its header, and [track.notes] for every track. *)
Record Midi (V : Type) : Type := mkMidi {
  header : Header V;
  tracks : list (list RawNote)
}.

Arguments mkMidi {V}.
Arguments header {V}.
Arguments tracks {V}.

(** [program.opts()] *)
Record Options : Type := mkOptions {
  input : string;
  output : string;
  verbose : bool
}.

(** The fields of a [MidiConverter]. *)
Record MidiConverter (V : Type) : Type := mkMidiConverter {
  this_ticksPerBeat : JS.value;
  lastLoadedMidi : option (Midi V);
  options : Options
}.

Arguments mkMidiConverter {V}.
Arguments this_ticksPerBeat {V}.
Arguments lastLoadedMidi {V}.
Arguments options {V}.

(** [new MidiConverter()], after [setupCLI] stored the options. *)
Definition new_converter {V} (opts : Options) : MidiConverter V :=
  {| this_ticksPerBeat := DEFAULT_TICKS_PER_BEAT;
     lastLoadedMidi := None;
     options := opts |}.

(** What the file system answers: whether [access] resolves, what
    [new Midi(await readFile(path))] gives ([None] when one of the two
    throws), and whether [writeFile] resolves. *)
Record World (V : Type) : Type := mkWorld {
  access : string -> bool;
  readMidi : string -> option (Midi V);
  writeFile : string -> bool
}.

Arguments mkWorld {V}.
Arguments access {V}.
Arguments readMidi {V}.
Arguments writeFile {V}.

(** The errors of a run. *)
Inductive Error : Type :=
| BadExtension
| NoAccess (path : string)
| LoadError
| TypeError
| WriteError.

(** The requests [saveOutput] makes to the MIDI library and to the file
    system, in the order in which it makes them. *)
Inductive Call (V : Type) : Type :=
| NewMidi
| SetTicksPerBeat (v : JS.value)
| SetTempo (bpm tick : V)
| PushTimeSignature (ticks timeSignature : V)
| PushKeySignature (ticks key : V)
| AddTrack
| SetName (name : string)
| AddNote (midi : Z) (time duration velocity : Q)
| WriteFile (path : string).

Arguments NewMidi {V}.
Arguments SetTicksPerBeat {V}.
Arguments SetTempo {V}.
Arguments PushTimeSignature {V}.
Arguments PushKeySignature {V}.
Arguments AddTrack {V}.
Arguments SetName {V}.
Arguments AddNote {V}.
Arguments WriteFile {V}.

(** A path that ends in [.mid] or in [.midi]. *)
Definition named_midi (path : string) : Prop :=
  exists stem, path = String.append stem ".mid" \/
               path = String.append stem ".midi".

(** [validateInput], lines 53-65: the error it throws, if any. *)
Definition validateInput {V} (w : World V) (opts : Options) : option Error :=
  if negb (endsWith (input opts) ".mid") && negb (endsWith (input opts) ".midi")
  then Some BadExtension
  else if access w (input opts) then None
  else Some (NoAccess (input opts)).

(** [loadMidiFile], lines 67-78: the converter afterwards and the parsed
    file. *)
Definition loadMidiFile {V} (w : World V) (this : MidiConverter V) (path : string)
  : Error + MidiConverter V * Midi V :=
  match readMidi w path with
  | None => inl LoadError
  | Some midi =>
      inr ({| this_ticksPerBeat :=
                or_else (ticksPerBeat (header midi)) DEFAULT_TICKS_PER_BEAT;
              lastLoadedMidi := Some midi;
              options := options this |}, midi)
  end.

(** [x && x.length > 0 ? x.map(f) : []], the shape of lines 244-266. *)
Definition forEach_present {A B} (f : A -> B) (x : option (list A)) : list B :=
  match x with
  | Some (a :: l) => map f (a :: l)
  | _ => []
  end.

(** Lines 240-267: the events copied from the header of the loaded file. *)
Definition copyHeader {V} (this : MidiConverter V) : list (Call V) :=
  match lastLoadedMidi this with
  | Some midi =>
      let origHeader := header midi in
      forEach_present (fun tempo => SetTempo (bpm tempo) (tick tempo))
        (tempos origHeader)
      ++ forEach_present
           (fun ts => PushTimeSignature (ts_ticks ts) (timeSignature ts))
           (timeSignatures origHeader)
      ++ forEach_present (fun ks => PushKeySignature (ks_ticks ks) (key ks))
           (keySignatures origHeader)
  | None => []
  end.

(** Lines 275-280: [track.addNote({midi, time, duration, velocity})]. *)
Definition addNote {V} (note : Note) : Call V :=
  AddNote (midi note) (time note) (duration note) (velocity note).

(** One round of the loop of lines 270-282 on the notes of a track. *)
Definition trackCalls {V} (trackName : string) (notes : list Note) : list (Call V) :=
  AddTrack :: SetName trackName :: map addNote notes.

(** The loop of lines 270-282; [notes.forEach] on a name that the map does
    not have is a TypeError, after the track was added and named. *)
Fixpoint saveTracks {V} (names : list string) (trackMap : gmap string (list Note))
  : list (Call V) * option Error :=
  match names with
  | [] => ([], None)
  | trackName :: rest =>
      match trackMap !! trackName with
      | None => ([AddTrack; SetName trackName], Some TypeError)
      | Some notes =>
          let '(calls, err) := saveTracks rest trackMap in
          (trackCalls trackName notes ++ calls, err)
      end
  end.

(** [saveOutput], lines 235-288: the requests made, and the error that
    ended it, if any. *)
Definition saveOutput {V} (w : World V) (this : MidiConverter V)
    (trackMap : gmap string (list Note)) : list (Call V) * option Error :=
  let start :=
    NewMidi :: SetTicksPerBeat (this_ticksPerBeat this) :: copyHeader this in
  match saveTracks ["Main Theme"; "Chord"; "Base"] trackMap with
  | (calls, Some err) => (start ++ calls, Some err)
  | (calls, None) =>
      (start ++ calls ++ [WriteFile (output (options this))],
       if writeFile w (output (options this)) then None else Some WriteError)
  end.

(** How a run ends: an error thrown outside of [try] rejects the promise of
    [run]; an error caught goes to [handleError], which ends the process
    with status 1; otherwise [logSuccess] is reached. *)
Inductive Outcome (V : Type) : Type :=
| Rejected (err : Error)
| Exit1 (calls : list (Call V)) (err : Error)
| Success (calls : list (Call V)).

Arguments Rejected {V}.
Arguments Exit1 {V}.
Arguments Success {V}.

(** [run], lines 25-38, once [setupCLI] has returned the options [opts]. *)
Definition run_converter {V} (w : World V) (opts : Options) : Outcome V :=
  let this := new_converter opts in
  match validateInput w opts with
  | Some err => Rejected err
  | None =>
      match loadMidiFile w this (input opts) with
      | inl err => Exit1 [] err
      | inr (this', midi) =>
          let processed := processMidi (tracks midi) in
          match saveOutput w this' processed with
          | (calls, Some err) => Exit1 calls err
          | (calls, None) => Success calls
          end
      end
  end.

(** The requests of an outcome. *)
Definition calls_of {V} (o : Outcome V) : list (Call V) :=
  match o with
  | Rejected _ => []
  | Exit1 calls _ | Success calls => calls
  end.

(** The arguments of [track.addNote] for a note. *)
Definition noteArgs (note : Note) : Z * Q * Q * Q :=
  (midi note, time note, duration note, velocity note).

(** The notes a list of requests adds. *)
Definition notesAdded {V} (calls : list (Call V)) : list (Z * Q * Q * Q) :=
  omap (fun c => match c with
                 | AddNote m t d v => Some (m, t, d, v)
                 | _ => None
                 end) calls.

(** The names given to the tracks a list of requests adds. *)
Definition tracksNamed {V} (calls : list (Call V)) : list string :=
  omap (fun c => match c with SetName name => Some name | _ => None end) calls.

(** The requests that write a file. *)
Definition filesWritten {V} (calls : list (Call V)) : list string :=
  omap (fun c => match c with WriteFile path => Some path | _ => None end) calls.

(** A parsed file that holds [relay] at 96 ticks per beat, with one tempo
    event. *)
Definition in_mid : Midi Z :=
  {| header := {| ticksPerBeat := JS.Num (JS.Fin 96);
                  tempos := Some [mkTempo 120%Z 0%Z];
                  timeSignatures := Some [];
                  keySignatures := None |};
     tracks := relay |}.

(** A file system with one readable file, [in.mid], parsed as [in_mid];
    every write succeeds. *)
Definition one_file : World Z :=
  {| access := fun path => String.eqb path "in.mid";
     readMidi := fun path =>
       if String.eqb path "in.mid" then Some in_mid else None;
     writeFile := fun _ => true |}.

(** * Properties *)

(** ** Comparisons on rationals *)

Lemma Qle_bool_false (x y : Q) : Qle_bool x y = false <-> y < x.
Proof.
  split; intros H.
  - apply Qnot_le_lt. intros Hle. apply Qle_bool_iff in Hle. congruence.
  - destruct (Qle_bool x y) eqn:E; [|done].
    apply Qle_bool_iff in E. exfalso. eapply Qlt_not_le; eauto.
Qed.

Lemma Qgtb_true (x y : Q) : Qgtb x y = true <-> y < x.
Proof. unfold Qgtb. rewrite negb_true_iff. apply Qle_bool_false. Qed.

Lemma Qgtb_false (x y : Q) : Qgtb x y = false <-> x <= y.
Proof. unfold Qgtb. rewrite negb_false_iff. apply Qle_bool_iff. Qed.

Lemma Qltb_true (x y : Q) : Qltb x y = true <-> x < y.
Proof. unfold Qltb. rewrite negb_true_iff. apply Qle_bool_false. Qed.

(** Linear arithmetic with the two constants of the allocator. *)
Ltac qarith := unfold eps, min_duration in *; lra.

Lemma overlaps_true (x y : Note) :
  overlaps x y = true <-> time y + eps < endTime x /\ time x < endTime y - eps.
Proof.
  unfold overlaps. rewrite negb_true_iff, orb_false_iff, !Qle_bool_false.
  tauto.
Qed.

Lemma overlaps_false (x y : Note) :
  overlaps x y = false <->
  endTime x <= time y + eps \/ endTime y - eps <= time x.
Proof.
  unfold overlaps. rewrite negb_false_iff, orb_true_iff, !Qle_bool_iff.
  tauto.
Qed.

Lemma overlaps_sym (x y : Note) : overlaps x y = overlaps y x.
Proof.
  destruct (overlaps y x) eqn:E.
  - apply overlaps_true in E. apply overlaps_true. lra.
  - apply overlaps_false in E. apply overlaps_false. lra.
Qed.

Lemma starts_before_true (x o : Note) :
  starts_before x o = true <-> time x < time o /\ time o + eps < endTime x.
Proof.
  unfold starts_before. by rewrite andb_true_iff, Qltb_true, Qgtb_true.
Qed.

Lemma spans_past_true (x o : Note) :
  spans_past x o = true <->
  time x + eps < endTime o /\ endTime x + eps < endTime o /\
  time o < time x - eps.
Proof.
  unfold spans_past. rewrite !andb_true_iff, Qltb_true, !Qgtb_true. tauto.
Qed.

(** ** Lists whose entries are pairwise related *)

Lemma pairwise_nil {A} (R : A -> A -> Prop) : pairwise R [].
Proof. intros i j x y _ H. by rewrite lookup_nil in H. Qed.

Lemma pairwise_cons {A} (R : A -> A -> Prop) (x : A) (l : list A) :
  pairwise R (x :: l) <->
  (forall y, y ∈ l -> R x y /\ R y x) /\ pairwise R l.
Proof.
  split.
  - intros H. split.
    + intros y [k Hk]%list_elem_of_lookup. split.
      * apply (H 0%nat (S k)); [lia|done|done].
      * apply (H (S k) 0%nat); [lia|done|done].
    + intros i j a b Hij Ha Hb. apply (H (S i) (S j)); [lia|done|done].
  - intros [Hx Hl] [|i] [|j] a b Hij Ha Hb; simpl in *; simplify_eq.
    + apply Hx. apply list_elem_of_lookup; eauto.
    + apply Hx. apply list_elem_of_lookup; eauto.
    + apply (Hl i j); [lia|done|done].
Qed.

Lemma pairwise_snoc {A} (R : A -> A -> Prop) (l : list A) (x : A) :
  pairwise R l -> (forall y, y ∈ l -> R x y /\ R y x) ->
  pairwise R (l ++ [x]).
Proof.
  intros Hl Hx i j a b Hij Ha Hb.
  apply lookup_snoc_Some in Ha, Hb.
  destruct Ha as [[Hi Ha]|[Hi ->]], Hb as [[Hj Hb]|[Hj ->]].
  - by apply (Hl i j).
  - apply Hx. apply list_elem_of_lookup; eauto.
  - apply Hx. apply list_elem_of_lookup; eauto.
  - lia.
Qed.

Lemma pairwise_Permutation {A} (R : A -> A -> Prop) (l l' : list A) :
  l ≡ₚ l' -> pairwise R l -> pairwise R l'.
Proof.
  induction 1 as [|x l l' Hp IH|x y l|l1 l2 l3 _ IH1 _ IH2]; [done|..].
  - rewrite !pairwise_cons. intros [Hx Hl]. split; [|by apply IH].
    intros y Hy. apply Hx. by rewrite Hp.
  - rewrite !pairwise_cons. intros (Hy & Hx & Hl).
    split; [|split; [|done]].
    + intros z [->|Hz]%elem_of_cons.
      * split; apply Hy; left.
      * by apply Hx.
    + intros z Hz. apply Hy. by right.
  - auto.
Qed.

Lemma pairwise_fmap {A B} (f : A -> B) (R : B -> B -> Prop) (l : list A) :
  pairwise (fun x y => R (f x) (f y)) l -> pairwise R (map f l).
Proof.
  intros Hl i j x y Hij Hx Hy.
  change (map f l) with (f <$> l) in *.
  rewrite list_lookup_fmap in Hx, Hy.
  destruct (l !! i) as [a|] eqn:Ea, (l !! j) as [b|] eqn:Eb; simplify_eq/=.
  by apply (Hl i j).
Qed.

(** ** The stable sort *)

Lemma StronglySorted_mono {A} (R S : A -> A -> Prop) (l : list A) :
  (forall x y, R x y -> S x y) -> StronglySorted R l -> StronglySorted S l.
Proof.
  intros HRS. induction 1 as [|x l _ IH Hx]; constructor; [done|].
  eapply Forall_impl; [exact Hx|]. auto.
Qed.

Section Sorting.
Context {A : Type} (le : A -> A -> bool).

Lemma insert_sorted_Permutation (x : A) (l : list A) :
  JS.insert_sorted le x l ≡ₚ x :: l.
Proof.
  induction l as [|y l IH]; simpl; [done|].
  destruct (le x y); [done|]. rewrite IH. apply perm_swap.
Qed.

Hypothesis le_total : forall x y, le x y = false -> le y x = true.
Hypothesis le_trans : forall x y z, le x y = true -> le y z = true -> le x z = true.

Lemma insert_sorted_StronglySorted (x : A) (l : list A) :
  StronglySorted (fun a b => le a b = true) l ->
  StronglySorted (fun a b => le a b = true) (JS.insert_sorted le x l).
Proof.
  induction 1 as [|y l Hl IH Hy]; simpl.
  - repeat constructor.
  - destruct (le x y) eqn:E.
    + constructor; [by constructor|].
      constructor; [done|].
      eapply Forall_impl; [exact Hy|]. intros z Hz. by eapply le_trans.
    + constructor; [done|].
      rewrite insert_sorted_Permutation. constructor; [|done].
      by apply le_total.
Qed.
End Sorting.

Lemma sort_Permutation {A} (cmp : A -> A -> Q) (l : list A) :
  JS.sort cmp l ≡ₚ l.
Proof.
  unfold JS.sort. induction l as [|x l IH]; simpl; [done|].
  by rewrite insert_sorted_Permutation, IH.
Qed.

Lemma sort_StronglySorted {A} (cmp : A -> A -> Q) (l : list A) :
  (forall x y, 0 < cmp x y -> cmp y x <= 0) ->
  (forall x y z, cmp x y <= 0 -> cmp y z <= 0 -> cmp x z <= 0) ->
  StronglySorted (fun a b => cmp a b <= 0) (JS.sort cmp l).
Proof.
  intros Htot Htrans.
  eapply StronglySorted_mono with
    (R := fun a b => Qle_bool (cmp a b) 0 = true).
  { intros a b. by rewrite Qle_bool_iff. }
  unfold JS.sort. induction l as [|x l IH]; simpl; [constructor|].
  apply insert_sorted_StronglySorted; [| |done].
  - intros a b. rewrite Qle_bool_false, Qle_bool_iff. apply Htot.
  - intros a b c. rewrite !Qle_bool_iff. apply Htrans.
Qed.

Lemma compareNotes_le (a b : Note) : compareNotes a b <= 0 <-> note_le a b.
Proof.
  unfold compareNotes, note_le.
  destruct (Qeq_bool (time a - time b) 0) eqn:E.
  - apply Qeq_bool_iff in E.
    assert (inject_Z (midi b - midi a) <= 0 <-> (midi b <= midi a)%Z) as ->.
    { change 0 with (inject_Z 0). rewrite <- Zle_Qle. lia. }
    split; [intros H; right; split; [lra|done]|].
    intros [H|[_ H]]; [lra|done].
  - apply Qeq_bool_neq in E.
    split; [intros H; left; lra|].
    intros [H|[H _]]; [lra|]. exfalso. apply E. lra.
Qed.

Lemma note_le_total (a b : Note) : note_le a b \/ note_le b a.
Proof.
  unfold note_le.
  destruct (Q_dec (time a) (time b)) as [[H|H]|H]; [tauto|tauto|].
  destruct (Z.le_ge_cases (midi a) (midi b)).
  - right. right. split; [by symmetry|done].
  - left. right. done.
Qed.

Lemma note_le_trans (a b c : Note) : note_le a b -> note_le b c -> note_le a c.
Proof.
  unfold note_le. intros [H1|[H1 H1']] [H2|[H2 H2']].
  - left. lra.
  - left. lra.
  - left. lra.
  - right. split; [lra|lia].
Qed.

Lemma allNotesOf_Permutation (tracks : list (list RawNote)) :
  allNotesOf tracks ≡ₚ collectNotes tracks.
Proof. apply sort_Permutation. Qed.

Lemma allNotesOf_StronglySorted (tracks : list (list RawNote)) :
  StronglySorted note_le (allNotesOf tracks).
Proof.
  eapply StronglySorted_mono with (R := fun a b => compareNotes a b <= 0).
  { intros a b. apply compareNotes_le. }
  apply sort_StronglySorted.
  - intros x y H. apply compareNotes_le.
    destruct (note_le_total x y) as [Hxy|Hyx]; [|done].
    apply compareNotes_le in Hxy. lra.
  - intros x y z. rewrite !compareNotes_le. apply note_le_trans.
Qed.

(** ** What one iteration does to the state *)

Lemma slot_indexOf (name : string) :
  name ∈ TRACK_NAMES -> slot (JS.indexOf name TRACK_NAMES) name.
Proof.
  unfold TRACK_NAMES. rewrite !elem_of_cons, elem_of_nil.
  intros [->|[->|[->|[]]]]; reflexivity.
Qed.

Lemma slot_lt (idx : nat) (name : string) : slot idx name -> (idx < 3)%nat.
Proof. intros H. apply lookup_lt_Some in H. exact H. Qed.

Lemma slot_total (p : nat) : (p < 3)%nat -> slot p (TRACK_NAMES !!! p).
Proof.
  intros H. destruct p as [|[|[|p]]]; [reflexivity..|lia].
Qed.

Lemma record_affinity_known (o idx p : nat) (st : State) :
  origTrackToTarget st !! o = Some p -> record_affinity o idx st = st.
Proof. intros H. unfold record_affinity. rewrite H. by destruct st. Qed.

Lemma try_track_placed (idx : nat) (name : string) (a : addr) (st st' : State) :
  try_track idx name a st = Some st' -> placed idx name a st st'.
Proof.
  unfold try_track.
  destruct (find_overlap _ _ _) as [ov|] eqn:Hfind.
  - unfold truncate_incoming, truncate_existing.
    destruct (starts_before _ _) eqn:Hi.
    + destruct (Qgtb (time (deref (heap st) ov) - _) _) eqn:Hd.
      * intros [= <-]. by eapply placed_truncated.
      * destruct (spans_past _ _) eqn:Hii; [|done].
        destruct (Qgtb (time (deref (heap st) a) - _) _) eqn:Hd'; [|done].
        intros [= <-]. by eapply placed_shortening.
    + destruct (spans_past _ _) eqn:Hii; [|done].
      destruct (Qgtb (time (deref (heap st) a) - _) _) eqn:Hd'; [|done].
      intros [= <-]. by eapply placed_shortening.
  - intros [= <-]. by apply placed_verbatim.
Qed.

Lemma scan_outcome (preferIdx : option nat) (a : addr) (tryOrder : list string)
    (st st' : State) (assigned : bool) :
  (affinity_ok st -> Forall (fun name => name ∈ TRACK_NAMES) tryOrder) ->
  scan preferIdx a tryOrder st = (st', assigned) ->
  outcome a st st' assigned.
Proof.
  induction tryOrder as [|name rest IH]; cbn [scan]; intros Hnames.
  - by intros [= <- <-].
  - case_bool_decide.
    { apply IH. intros Hok. specialize (Hnames Hok). by inversion Hnames. }
    destruct (try_track _ _ _ _) as [st1|] eqn:Htry.
    + intros [= <- <-]. eexists _, _. split; [by eapply try_track_placed|].
      intros Hok. apply slot_indexOf. specialize (Hnames Hok).
      by inversion Hnames.
    + apply IH. intros Hok. specialize (Hnames Hok). by inversion Hnames.
Qed.

Lemma idxByPitch_cases (allNotes : list Note) (note : Note) :
  idxByPitch allNotes note = 0%nat \/ idxByPitch allNotes note = 1%nat \/
  idxByPitch allNotes note = 2%nat.
Proof.
  unfold idxByPitch. repeat case_match; auto.
Qed.

Lemma tryOrderOf_names (allNotes : list Note) (preferIdx : option nat)
    (note : Note) :
  (forall p, preferIdx = Some p -> (p < 3)%nat) ->
  Forall (fun name => name ∈ TRACK_NAMES) (tryOrderOf allNotes preferIdx note).
Proof.
  intros Hp. unfold tryOrderOf. destruct preferIdx as [p|].
  - specialize (Hp p eq_refl).
    destruct p as [|[|[|p]]]; [| | |lia]; vm_compute;
      repeat constructor.
  - destruct (idxByPitch_cases allNotes note) as [-> | [-> | ->]]; vm_compute;
      repeat constructor.
Qed.

Lemma fast_path_outcome (p : nat) (a : addr) (st st' : State) (assigned : bool) :
  origTrackToTarget st !! origTrack (deref (heap st) a) = Some p ->
  fast_path (Some p) a st = (st', assigned) ->
  outcome a st st' assigned.
Proof.
  intros Haff. unfold fast_path.
  destruct (find_overlap _ _ _) eqn:Hfind; intros [= <- <-]; [done|].
  rewrite <- (record_affinity_known (origTrack (deref (heap st) a)) p p
                (push_note _ _ _ _)) by done.
  eexists _, _. split; [by apply placed_verbatim|].
  intros Hok. apply slot_total. by eapply Hok.
Qed.

Lemma step_outcome (n : nat) (a : addr) (st st' : State) (assigned : bool) :
  step n a st = (st', assigned) -> outcome a st st' assigned.
Proof.
  unfold step.
  destruct (origTrackToTarget st !! _) as [p|] eqn:Haff.
  - destruct (fast_path _ _ _) as [st1 b] eqn:Hfast.
    apply fast_path_outcome in Hfast; [|done].
    destruct b; [by intros [= <- <-]|]. simpl in Hfast. subst st1.
    apply scan_outcome. intros Hok. apply tryOrderOf_names.
    intros ? [= <-]. by eapply Hok.
  - cbn [fast_path]. apply scan_outcome. intros _. by apply tryOrderOf_names.
Qed.

(** ** The shape of the state: three arrays, shared by both structures *)

Lemma TRACK_NAMES_NoDup : NoDup TRACK_NAMES.
Proof. exact (bool_decide_unpack (NoDup TRACK_NAMES) I). Qed.

Lemma slot_inj (k k' : nat) (name : string) :
  slot k name -> slot k' name -> k = k'.
Proof.
  unfold slot. intros H H'.
  eapply NoDup_lookup; [apply TRACK_NAMES_NoDup|exact H|exact H'].
Qed.

Lemma placed_trackState (idx : nat) (name : string) (a : addr) (st st' : State) :
  placed idx name a st st' ->
  exists x, trackState st' = alter (fun l => l ++ [x]) idx (trackState st) /\
            trackMap st' = alter (fun l => l ++ [x]) name (trackMap st) /\
            (x = a \/ x = length (heap st)).
Proof. destruct 1; eexists; (split; [|split]); try reflexivity; auto. Qed.

Lemma placed_affinity (idx : nat) (name : string) (a : addr) (st st' : State) :
  placed idx name a st st' ->
  origTrackToTarget st' =
    match origTrackToTarget st !! origTrack (deref (heap st) a) with
    | Some _ => origTrackToTarget st
    | None => <[origTrack (deref (heap st) a) := idx]> (origTrackToTarget st)
    end.
Proof. by destruct 1. Qed.

Lemma init_state_shape (allNotes : list Note) : shape (init_state allNotes).
Proof.
  split.
  - reflexivity.
  - intros k name Hk. pose proof (slot_lt _ _ Hk).
    destruct k as [|[|[|k]]]; [..|lia]; injection Hk as <-; reflexivity.
  - intros name [l Hl]. unfold init_state in Hl; cbn [trackMap] in Hl.
    apply elem_of_list_to_map_2, list_elem_of_fmap in Hl as (x & [= -> _] & Hx).
    done.
  - intros o p. unfold init_state; cbn [origTrackToTarget].
    by rewrite lookup_empty.
Qed.

Lemma placed_shape (idx : nat) (name : string) (a : addr) (st st' : State) :
  shape st -> slot idx name -> placed idx name a st st' -> shape st'.
Proof.
  intros [Hlen Hmap Hkeys Haff] Hslot Hp.
  destruct (placed_trackState _ _ _ _ _ Hp) as (x & Hts & Htm & _).
  split.
  - by rewrite Hts, length_alter.
  - intros k name' Hk. rewrite Hts, Htm.
    destruct (decide (k = idx)) as [->|Hne].
    + assert (name' = name) as -> by (unfold slot in *; congruence).
      rewrite lookup_alter_eq, list_lookup_alter_eq. f_equal. by apply Hmap.
    + rewrite lookup_alter_ne, list_lookup_alter_ne by
        (try done; intros ->; apply Hne; by eapply slot_inj).
      by apply Hmap.
  - intros name'. rewrite Htm, lookup_alter_is_Some. apply Hkeys.
  - intros o p. rewrite (placed_affinity _ _ _ _ _ Hp).
    destruct (origTrackToTarget st !! origTrack _) eqn:E; [apply Haff|].
    rewrite lookup_insert. case_decide; [|apply Haff].
    intros [= <-]. by eapply slot_lt.
Qed.

Lemma outcome_shape (a : addr) (st st' : State) (assigned : bool) :
  shape st -> outcome a st st' assigned -> shape st'.
Proof.
  intros Hs. destruct assigned; simpl; [|by intros ->].
  intros (idx & name & Hp & Hslot). eapply placed_shape; [done| |done].
  apply Hslot, Hs.
Qed.

(** ** The notes held by the tracks *)

Lemma derives_refl (y : Note) : derives y y.
Proof. unfold derives. repeat split; auto. apply Qle_refl. Qed.

Lemma StronglySorted_time_sorted (l : list Note) :
  StronglySorted note_le l -> time_sorted l.
Proof.
  induction 1 as [|z l _ IH Hz]; intros b a y x Hba Hb Ha.
  - by rewrite lookup_nil in Hb.
  - destruct b as [|b], a as [|a]; simpl in *; simplify_eq.
    + apply Qle_refl.
    + rewrite Forall_forall in Hz.
      assert (note_le y x) as [H|[H _]]; [|lra|lra].
      apply Hz. apply list_elem_of_lookup. eauto.
    + lia.
    + apply (IH b a); [lia|done|done].
Qed.

Lemma find_overlap_None (h : list Note) (note : Note) (l : list addr) (r : addr) :
  find_overlap h note l = None -> r ∈ l -> overlaps note (deref h r) = false.
Proof.
  intros H Hr. apply list_elem_of_In in Hr.
  exact (find_none _ _ H r Hr).
Qed.

Lemma find_overlap_Some (h : list Note) (note : Note) (l : list addr) (ov : addr) :
  find_overlap h note l = Some ov ->
  ov ∈ l /\ overlaps note (deref h ov) = true.
Proof.
  intros H. apply find_some in H as [H1 H2]. by rewrite list_elem_of_In.
Qed.

Lemma deref_lookup (h : list Note) (r : addr) (x : Note) :
  h !! r = Some x -> deref h r = x.
Proof. apply list_lookup_total_correct. Qed.

Lemma lookup_deref (h : list Note) (r : addr) :
  (r < length h)%nat -> h !! r = Some (deref h r).
Proof.
  intros [x Hx]%lookup_lt_is_Some_2. by rewrite (deref_lookup _ _ _ Hx).
Qed.

Lemma deref_alter_ne (f : Note -> Note) (h : list Note) (r s : addr) :
  r <> s -> deref (alter f r h) s = deref h s.
Proof. apply list_lookup_total_alter_ne. Qed.

Lemma deref_alter_eq (f : Note -> Note) (h : list Note) (r : addr) :
  (r < length h)%nat -> deref (alter f r h) r = f (deref h r).
Proof. apply list_lookup_total_alter_eq. Qed.

(** Shortening an object keeps every array free of overlaps. *)
Lemma overlaps_shorter (x x' y y' : Note) :
  time x' = time x -> endTime x' <= endTime x ->
  time y' = time y -> endTime y' <= endTime y ->
  overlaps x y = false -> overlaps x' y' = false.
Proof.
  intros Hx Hx' Hy Hy'. rewrite !overlaps_false, Hx, Hy. lra.
Qed.

Lemma lookup_trackState (st : State) (k : nat) (l : list addr) :
  trackState st !! k = Some l -> trackState st !!! k = l.
Proof. apply list_lookup_total_correct. Qed.

Lemma lookup_alter_snoc (ts : list (list addr)) (idx k : nat) (x : addr)
    (l' : list addr) :
  alter (fun l => l ++ [x]) idx ts !! k = Some l' ->
  (k <> idx /\ ts !! k = Some l') \/
  (k = idx /\ exists l, ts !! k = Some l /\ l' = l ++ [x]).
Proof.
  destruct (decide (k = idx)) as [->|Hne].
  - rewrite list_lookup_alter_eq. destruct (ts !! idx) as [l|]; [|done].
    intros [= <-]. right. eauto.
  - rewrite list_lookup_alter_ne by done. auto.
Qed.

Section Invariant.
Variable allNotes : list Note.
Hypothesis allNotes_sorted : time_sorted allNotes.
Hypothesis allNotes_wf :
  forall x, x ∈ allNotes -> endTime x == time x + duration x.

Lemma init_state_notes_inv : notes_inv allNotes 0 (init_state allNotes).
Proof.
  split; simpl.
  - done.
  - done.
  - intros k l r Hk Hr. apply list_elem_of_lookup_2 in Hk.
    unfold TRACK_NAMES in Hk. simpl in Hk.
    rewrite !elem_of_cons, elem_of_nil in Hk.
    destruct Hk as [->|[->|[->|[]]]]; by apply elem_of_nil in Hr.
  - intros k l Hk. apply list_elem_of_lookup_2 in Hk.
    unfold TRACK_NAMES in Hk. simpl in Hk.
    rewrite !elem_of_cons, elem_of_nil in Hk.
    destruct Hk as [->|[->|[->|[]]]]; apply pairwise_nil.
  - intros r x Hx. apply allNotes_wf. by eapply list_elem_of_lookup_2.
  - intros r x Hx. exists x. split; [by eapply list_elem_of_lookup_2|].
    apply derives_refl.
  - intros a x y Hx Hy. rewrite Hx in Hy. by injection Hy as <-.
Qed.

Lemma notes_inv_skip (i : nat) (st : State) :
  notes_inv allNotes i st -> notes_inv allNotes (S i) st.
Proof.
  intros [Hpend Hsize Hrefs Hfree Hwf Hprov Hkeys]. split; try done.
  - intros a Ha. apply Hpend. lia.
  - intros k l r Hk Hr.
    destruct (Hrefs k l r Hk Hr) as (H1 & H2 & b & y & Hb & Hy).
    split; [done|]. split; [lia|]. exists b, y. split; [lia|done].
Qed.

(** The common part of the two placements that can happen: the address
    [x] joins the array [idx], while the store may have evolved by
    shortening objects. *)
Lemma push_notes_inv (i idx : nat) (x : addr) (st st' : State) :
  notes_inv allNotes i st ->
  trackState st' = alter (fun l => l ++ [x]) idx (trackState st) ->
  (forall a, (S i <= a)%nat -> (a < length allNotes)%nat ->
     heap st' !! a = allNotes !! a) ->
  length (heap st') = length (heap st) ->
  (forall r, (r < length (heap st))%nat ->
     time (deref (heap st') r) = time (deref (heap st) r) /\
     endTime (deref (heap st') r) <= endTime (deref (heap st) r)) ->
  (x < length (heap st'))%nat ->
  (x < S i \/ length allNotes <= x)%nat ->
  (exists y, allNotes !! i = Some y /\ time (deref (heap st') x) = time y) ->
  (forall l r, trackState st !! idx = Some l -> r ∈ l ->
     overlaps (deref (heap st') x) (deref (heap st') r) = false) ->
  (forall r z, heap st' !! r = Some z -> endTime z == time z + duration z) ->
  (forall r z, heap st' !! r = Some z -> exists y, y ∈ allNotes /\ derives y z) ->
  (forall a z y, heap st' !! a = Some z -> allNotes !! a = Some y ->
     time z = time y /\ midi z = midi y) ->
  notes_inv allNotes (S i) st'.
Proof.
  intros [Hpend Hsize Hrefs Hfree Hwf Hprov Hkeys]
    Hts Hpend' Hgrow Hevo Hx Hxi Hxt Hxfree Hwf' Hprov' Hkeys'.
  assert (Hold : forall k l r, trackState st !! k = Some l -> r ∈ l ->
    (r < length (heap st'))%nat /\
    (r < S i \/ length allNotes <= r)%nat /\
    exists b y, (b < S i)%nat /\ allNotes !! b = Some y /\
                time (deref (heap st') r) = time y).
  { intros k l r Hk Hr.
    destruct (Hrefs k l r Hk Hr) as (H1 & H2 & b & y & Hb & Hy & Ht).
    split; [lia|]. split; [lia|]. exists b, y.
    split; [lia|]. split; [done|].
    destruct (Hevo r H1) as [-> _]. done. }
  assert (Hfree' : forall k l, trackState st !! k = Some l -> free (heap st') l).
  { intros k l Hk i1 i2 r s Hne Hr Hs.
    assert (r ∈ l) as Hr' by (apply list_elem_of_lookup; eauto).
    assert (s ∈ l) as Hs' by (apply list_elem_of_lookup; eauto).
    destruct (Hrefs k l r Hk Hr') as (Hr1 & _).
    destruct (Hrefs k l s Hk Hs') as (Hs1 & _).
    destruct (Hevo r Hr1) as [? ?], (Hevo s Hs1) as [? ?].
    eapply overlaps_shorter; [done..|]. by apply (Hfree k l Hk i1 i2). }
  split; try done.
  - lia.
  - intros k l' r. rewrite Hts. intros Hk Hr.
    apply lookup_alter_snoc in Hk as [[_ Hk]|[-> (l & Hk & ->)]].
    + by eapply Hold.
    + apply elem_of_app in Hr as [Hr|Hr]; [by eapply Hold|].
      apply list_elem_of_singleton in Hr as ->.
      split; [done|]. split; [done|].
      destruct Hxt as (y & Hy & Ht). exists i, y. split; [lia|done].
  - intros k l'. rewrite Hts. intros Hk.
    apply lookup_alter_snoc in Hk as [[_ Hk]|[-> (l & Hk & ->)]].
    + by eapply Hfree'.
    + apply pairwise_snoc; [by eapply Hfree'|].
      intros r Hr. rewrite (overlaps_sym (deref (heap st') r)).
      split; by eapply Hxfree.
Qed.

(** Every way of reaching a track keeps the invariant.  The first
    truncation rule never fires here: the notes already placed start no
    later than the incoming one. *)
Lemma placed_notes_inv (i idx : nat) (name : string) (st st' : State) :
  shape st -> notes_inv allNotes i st -> (i < length allNotes)%nat ->
  slot idx name -> placed idx name i st st' -> notes_inv allNotes (S i) st'.
Proof.
  intros Hshape Hinv Hi Hslot Hp.
  pose proof (inv_size _ _ _ Hinv) as Hsize.
  assert (exists y, allNotes !! i = Some y /\ heap st !! i = Some y)
    as (y & Hy & Hhy).
  { destruct (lookup_lt_is_Some_2 allNotes i Hi) as [y Hy]. exists y.
    split; [done|]. rewrite <- Hy. by apply (inv_pending _ _ _ Hinv). }
  pose proof (deref_lookup _ _ _ Hhy) as Hnote.
  assert (trackState st !! idx = Some (trackState st !!! idx)) as Hl.
  { apply list_lookup_lookup_total_lt. rewrite (shape_tracks _ Hshape).
    by eapply slot_lt. }
  destruct Hp as [Hfind | ov Hfind Hsb Hd | ov Hfind Hsp Hd].
  - eapply push_notes_inv; [done|reflexivity|..]; cbn [heap record_affinity push_note].
    + intros a Ha. apply (inv_pending _ _ _ Hinv). lia.
    + done.
    + intros r _. split; [done|apply Qle_refl].
    + lia.
    + left; lia.
    + exists y. by rewrite Hnote.
    + intros l r Hl' Hr. eapply find_overlap_None; [done|].
      by rewrite (lookup_trackState _ _ _ Hl').
    + apply (inv_wf _ _ _ Hinv).
    + apply (inv_prov _ _ _ Hinv).
    + apply (inv_keys _ _ _ Hinv).
  - exfalso. apply find_overlap_Some in Hfind as [Hov _].
    destruct (inv_refs _ _ _ Hinv _ _ _ Hl Hov) as (_ & _ & b & z & Hb & Hz & Ht).
    apply starts_before_true in Hsb as [Hsb _].
    rewrite Ht, Hnote in Hsb.
    assert (time z <= time y) by (apply (allNotes_sorted b i); [lia|done..]).
    lra.
  - apply find_overlap_Some in Hfind as [Hov Hovl].
    destruct (inv_refs _ _ _ Hinv _ _ _ Hl Hov) as (Hov1 & Hov2 & _).
    assert (ov <> i) as Hne by lia.
    apply spans_past_true in Hsp as (Hsp1 & Hsp2 & Hsp3).
    apply Qgtb_true in Hd.
    pose proof (inv_wf _ _ _ Hinv ov _ (lookup_deref _ _ Hov1)) as Hwfov.
    set (d := time (deref (heap st) i) - time (deref (heap st) ov)) in *.
    assert (Hevo : forall r, (r < length (heap st))%nat ->
      time (deref (alter (shortened d) ov (heap st)) r) = time (deref (heap st) r) /\
      endTime (deref (alter (shortened d) ov (heap st)) r)
        <= endTime (deref (heap st) r)).
    { intros r Hr. destruct (decide (ov = r)) as [<-|Hner].
      - rewrite deref_alter_eq by done. split; [done|]. simpl.
        unfold d. qarith.
      - rewrite deref_alter_ne by done. split; [done|apply Qle_refl]. }
    eapply push_notes_inv; [done|reflexivity|..];
      cbn [heap record_affinity push_note shorten].
    + intros a Ha Han. rewrite list_lookup_alter_ne by lia.
      apply (inv_pending _ _ _ Hinv); lia.
    + by rewrite length_alter.
    + done.
    + rewrite length_alter. lia.
    + left; lia.
    + exists y. by rewrite deref_alter_ne, Hnote.
    + intros l r Hl' Hr. rewrite Hl in Hl'. injection Hl' as <-.
      rewrite (deref_alter_ne _ _ ov i) by done.
      destruct (decide (r = ov)) as [->|Hner].
      * rewrite deref_alter_eq by done. apply overlaps_false. simpl.
        unfold d. right. qarith.
      * rewrite deref_alter_ne by done.
        apply list_elem_of_lookup in Hr as [j Hj].
        apply list_elem_of_lookup in Hov as [j0 Hj0].
        assert (j <> j0) as Hjj by congruence.
        pose proof (inv_free _ _ _ Hinv _ _ Hl j j0 r ov Hjj Hj Hj0) as Hfr.
        apply overlaps_false in Hfr. apply overlaps_false. qarith.
    + intros r z. rewrite list_lookup_alter.
      case_decide; [|apply (inv_wf _ _ _ Hinv)].
      subst r. rewrite (lookup_deref _ _ Hov1). intros [= <-]. simpl.
      qarith.
    + intros r z. rewrite list_lookup_alter.
      case_decide; [|apply (inv_prov _ _ _ Hinv)].
      subst r. rewrite (lookup_deref _ _ Hov1). intros [= <-].
      destruct (inv_prov _ _ _ Hinv ov _ (lookup_deref _ _ Hov1))
        as (w & Hw & ? & ? & ? & ? & Hdur & _).
      exists w. split; [done|]. unfold derives. simpl.
      repeat split; [done..| |by right].
      unfold d. qarith.
    + intros r z w. rewrite list_lookup_alter.
      case_decide; [|apply (inv_keys _ _ _ Hinv)].
      subst r. rewrite (lookup_deref _ _ Hov1). intros [= <-] Hw.
      apply (inv_keys _ _ _ Hinv ov _ w (lookup_deref _ _ Hov1) Hw).
Qed.
End Invariant.

(** ** The whole loop *)

Lemma length_concat_alter_snoc (ts : list (list addr)) (idx : nat) (x : addr) :
  (idx < length ts)%nat ->
  length (concat (alter (fun l => l ++ [x]) idx ts)) = S (length (concat ts)).
Proof.
  revert idx. induction ts as [|l ts IH]; intros idx Hidx; simpl in *; [lia|].
  destruct idx as [|idx].
  - simpl. rewrite !length_app. simpl. lia.
  - change (length (l ++ concat (alter (fun l => l ++ [x]) idx ts))
            = S (length (l ++ concat ts))).
    rewrite !length_app, IH by lia. lia.
Qed.

Lemma outcome_placedCount (a : addr) (st st' : State) (assigned : bool) :
  shape st -> outcome a st st' assigned ->
  placedCount st' = ((if assigned then 1 else 0) + placedCount st)%nat.
Proof.
  intros Hs. destruct assigned; simpl; [|by intros ->].
  intros (idx & name & Hp & Hslot). unfold placedCount.
  destruct (placed_trackState _ _ _ _ _ Hp) as (x & -> & _).
  apply length_concat_alter_snoc. rewrite (shape_tracks _ Hs).
  eapply slot_lt, Hslot, Hs.
Qed.

Section Loop.
Variable allNotes : list Note.
Hypothesis allNotes_sorted : time_sorted allNotes.
Hypothesis allNotes_wf :
  forall x, x ∈ allNotes -> endTime x == time x + duration x.

Lemma step_invariant (i : nat) (st st' : State) (assigned : bool) :
  (i < length allNotes)%nat ->
  shape st -> notes_inv allNotes i st ->
  step (length allNotes) i st = (st', assigned) ->
  shape st' /\ notes_inv allNotes (S i) st' /\
  placedCount st' = ((if assigned then 1 else 0) + placedCount st)%nat.
Proof.
  intros Hi Hs Hinv Hstep. apply step_outcome in Hstep.
  split; [by eapply outcome_shape|].
  split; [|by eapply outcome_placedCount].
  destruct assigned; simpl in Hstep.
  - destruct Hstep as (idx & name & Hp & Hslot).
    eapply placed_notes_inv; [done..|apply Hslot, Hs|done].
  - subst st'. by apply notes_inv_skip.
Qed.

Lemma allocate_invariant (m i : nat) (st st' : State) (dropped dropped' : list addr) :
  (i + m <= length allNotes)%nat ->
  shape st -> notes_inv allNotes i st ->
  allocate (length allNotes) (seq i m) st dropped = (st', dropped') ->
  shape st' /\ notes_inv allNotes (i + m) st' /\
  (placedCount st' + length dropped' = placedCount st + length dropped + m)%nat.
Proof.
  revert i st dropped.
  induction m as [|m IH]; intros i st dropped Him Hs Hinv; simpl.
  - intros [= <- <-]. rewrite Nat.add_0_r.
    split; [done|]. split; [done|lia].
  - destruct (step _ _ _) as [st1 assigned] eqn:Hstep.
    apply step_invariant in Hstep as (Hs1 & Hinv1 & Hcount); [|lia|done..].
    intros Hrest. apply IH in Hrest as (? & ? & Hcount'); [|lia|done..].
    split; [done|]. split; [by rewrite <- Nat.add_succ_comm|].
    rewrite Hcount', Hcount.
    destruct assigned; [lia|]. rewrite length_app. simpl. lia.
Qed.

Lemma run_invariant :
  shape (run allNotes).1 /\
  notes_inv allNotes (length allNotes) (run allNotes).1 /\
  (placedCount (run allNotes).1 + length (run allNotes).2
     = length allNotes)%nat.
Proof.
  unfold run.
  destruct (allocate _ _ _ _) as [st' dropped'] eqn:Hrun.
  apply allocate_invariant in Hrun as (? & ? & Hcount).
  - split; [done|]. split; [done|]. simpl. rewrite Hcount. reflexivity.
  - simpl. lia.
  - apply init_state_shape.
  - by apply init_state_notes_inv.
Qed.

(** The iteration number [i] finds the note number [i] of [allNotes] at
    address [i], as it was built. *)
Lemma allocate_pending (i : nat) :
  (i < length allNotes)%nat ->
  heap (allocate (length allNotes) (seq 0 i) (init_state allNotes) []).1 !! i
  = allNotes !! i.
Proof.
  intros Hi.
  destruct (allocate _ _ _ _) as [st' dropped'] eqn:Hrun.
  apply allocate_invariant in Hrun as (_ & Hinv & _).
  - simpl in *. by apply (inv_pending _ _ _ Hinv).
  - simpl. lia.
  - apply init_state_shape.
  - by apply init_state_notes_inv.
Qed.
End Loop.

Lemma allNotesOf_wf (tracks : list (list RawNote)) (x : Note) :
  x ∈ allNotesOf tracks -> endTime x == time x + duration x.
Proof.
  rewrite allNotesOf_Permutation. unfold collectNotes.
  rewrite list_elem_of_In, in_concat.
  intros (l & Hl & Hx). apply list_elem_of_In in Hl, Hx.
  apply list_elem_of_lookup in Hl as [k Hk].
  rewrite list_lookup_imap in Hk.
  destruct (tracks !! k) as [notes|]; simplify_eq/=.
  apply list_elem_of_fmap in Hx as (r & -> & _). reflexivity.
Qed.

Lemma processMidi_invariant (tracks : list (list RawNote)) :
  let all := allNotesOf tracks in
  shape (run all).1 /\ notes_inv all (length all) (run all).1 /\
  (placedCount (run all).1 + length (droppedNotes tracks) = length all)%nat.
Proof.
  apply run_invariant.
  - apply StronglySorted_time_sorted, allNotesOf_StronglySorted.
  - apply allNotesOf_wf.
Qed.

(** During a call the first truncation rule never fires: no copy of a note
    is made, and the store holds the objects of [allNotes] and no other. *)
Lemma no_truncated_copy (tracks : list (list RawNote)) :
  length (heap (run (allNotesOf tracks)).1) = length (allNotesOf tracks).
Proof.
  destruct (processMidi_invariant tracks) as (_ & Hinv & _).
  apply (inv_size _ _ _ Hinv).
Qed.

(** ** The returned tracks *)

Lemma finalize_lookup (st : State) (name : string) (notes : list Note) :
  shape st -> finalize st !! name = Some notes ->
  exists k l, slot k name /\ trackState st !! k = Some l /\
    notes = map (deref (heap st))
              (JS.sort (fun x y => time (deref (heap st) x)
                                   - time (deref (heap st) y)) l).
Proof.
  intros Hs. unfold finalize. rewrite lookup_fmap.
  destruct (trackMap st !! name) as [l|] eqn:Hl; [|done].
  intros [= <-].
  assert (name ∈ TRACK_NAMES) as [k Hk]%list_elem_of_lookup
    by (apply (shape_keys _ Hs); eauto).
  exists k, l. split; [done|]. split; [|done].
  by rewrite <- (shape_map _ Hs k name Hk).
Qed.

Lemma outputTrack_finalize (st : State) (k : nat) :
  shape st -> (k < 3)%nat ->
  outputTrack (finalize st) k =
    map (deref (heap st))
      (JS.sort (fun x y => time (deref (heap st) x) - time (deref (heap st) y))
         (trackState st !!! k)).
Proof.
  intros Hs Hk. unfold outputTrack, finalize. rewrite lookup_fmap.
  rewrite (shape_map _ Hs k _ (slot_total k Hk)).
  rewrite (list_lookup_lookup_total_lt (trackState st) k)
    by (by rewrite (shape_tracks _ Hs)).
  reflexivity.
Qed.

(** The notes of a returned track are objects of the store that one of
    the three arrays refers to. *)
Lemma processMidi_elem_of (tracks : list (list RawNote)) (name : string)
    (notes : list Note) (x : Note) :
  processMidi tracks !! name = Some notes -> x ∈ notes ->
  exists r, heap (run (allNotesOf tracks)).1 !! r = Some x.
Proof.
  destruct (processMidi_invariant tracks) as (Hs & Hinv & _).
  intros (k & l & Hk & Hl & ->)%finalize_lookup Hx; [|done].
  apply list_elem_of_fmap in Hx as (r & -> & Hr).
  rewrite sort_Permutation in Hr.
  destruct (inv_refs _ _ _ Hinv k l r Hl Hr) as (Hlt & _).
  exists r. by apply lookup_deref.
Qed.

Lemma length_concat_imap {A B} (f : nat -> list A -> list B) (ls : list (list A)) :
  (forall i l, length (f i l) = length l) ->
  length (concat (imap f ls)) = sum_list (length <$> ls).
Proof.
  revert f. induction ls as [|l ls IH]; intros f Hf; [done|].
  rewrite imap_cons. simpl. rewrite length_app, Hf, IH; [done|].
  intros i l'. apply Hf.
Qed.

Lemma length_collectNotes (tracks : list (list RawNote)) :
  length (collectNotes tracks) = inputCount tracks.
Proof.
  apply length_concat_imap. intros i l. apply length_map.
Qed.

Lemma length_allNotesOf (tracks : list (list RawNote)) :
  length (allNotesOf tracks) = inputCount tracks.
Proof. by rewrite allNotesOf_Permutation, length_collectNotes. Qed.

Lemma totalNotes_finalize (st : State) :
  shape st -> totalNotes (finalize st) = placedCount st.
Proof.
  intros Hs. unfold totalNotes, placedCount.
  rewrite !outputTrack_finalize by (done || lia).
  rewrite !length_map, !sort_Permutation.
  pose proof (shape_tracks _ Hs) as Hlen.
  destruct (trackState st) as [|l0 [|l1 [|l2 [|l3 ts]]]]; simplify_eq/=.
  rewrite !length_app. simpl. lia.
Qed.

(** C3. The three returned tracks hold as many notes as the input has,
    less the notes that ended an iteration unassigned; so they hold at most
    as many notes as the input, and exactly as many when no note was
    dropped, and only then. *)
Theorem count_bound (tracks : list (list RawNote)) :
  (totalNotes (processMidi tracks) + length (droppedNotes tracks)
     = inputCount tracks)%nat /\
  (totalNotes (processMidi tracks) <= inputCount tracks)%nat /\
  (totalNotes (processMidi tracks) = inputCount tracks
     <-> droppedNotes tracks = []).
Proof.
  destruct (processMidi_invariant tracks) as (Hs & _ & Hcount).
  unfold processMidi. rewrite (totalNotes_finalize _ Hs).
  rewrite length_allNotesOf in Hcount.
  split; [done|]. split; [lia|]. split.
  - intros H. apply length_zero_iff_nil. lia.
  - intros H. rewrite H in Hcount. simpl in Hcount. lia.
Qed.

Lemma collectNotes_elem_of (tracks : list (list RawNote)) (y : Note) :
  y ∈ collectNotes tracks ->
  exists k src r, tracks !! k = Some src /\ r ∈ src /\ y = note_of_raw k r.
Proof.
  unfold collectNotes. rewrite list_elem_of_In, in_concat.
  intros (l & Hl & Hy). apply list_elem_of_In in Hl, Hy.
  apply list_elem_of_lookup in Hl as [k Hk].
  rewrite list_lookup_imap in Hk.
  destruct (tracks !! k) as [src|] eqn:Hsrc; simplify_eq/=.
  apply list_elem_of_fmap in Hy as (r & -> & Hr). eauto 6.
Qed.

(** C9. A note of a returned track has the pitch, the velocity, the start
    time and the origin of a note of the input, and a duration that is no
    longer: the same, or a shortened one above 0.01 seconds. *)
Theorem allocation_frame (tracks : list (list RawNote)) (name : string)
    (notes : list Note) (x : Note) :
  processMidi tracks !! name = Some notes -> x ∈ notes ->
  exists k src r,
    tracks !! k = Some src /\ r ∈ src /\
    midi x = raw_midi r /\ velocity x = raw_velocity r /\
    time x = raw_time r /\ origTrack x = k /\
    duration x <= raw_duration r /\
    (duration x = raw_duration r \/ min_duration < duration x).
Proof.
  intros Hout Hx.
  destruct (processMidi_invariant tracks) as (_ & Hinv & _).
  destruct (processMidi_elem_of _ _ _ _ Hout Hx) as [a Ha].
  destruct (inv_prov _ _ _ Hinv a x Ha) as (y & Hy & Hd).
  rewrite allNotesOf_Permutation in Hy.
  apply collectNotes_elem_of in Hy as (k & src & r & Hk & Hr & ->).
  destruct Hd as (? & ? & ? & ? & ? & ?). exists k, src, r. done.
Qed.

(** A long note of the second source track is shortened on Chord to make
    room for a later note; it keeps everything but its duration. *)
Lemma allocation_frame_witness :
  let x := mkNote 60 0 (1 - 0) (1 # 2) (0 + (1 - 0)) 1 in
  exists k src r,
    [[mkRawNote 72 0 2 (1 # 2); mkRawNote 70 1 2 (1 # 2)];
     [mkRawNote 60 0 5 (1 # 2)];
     [mkRawNote 50 0 5 (1 # 2)]] !! k = Some src /\ r ∈ src /\
    midi x = raw_midi r /\ velocity x = raw_velocity r /\
    time x = raw_time r /\ origTrack x = k /\
    duration x <= raw_duration r /\
    (duration x = raw_duration r \/ min_duration < duration x).
Proof.
  intros x.
  apply (allocation_frame _ "Chord"
           [x; mkNote 70 1 2 (1 # 2) (1 + 2) 0] x).
  - vm_compute. reflexivity.
  - apply list_elem_of_here.
Defined.

(** ** Dropped notes and the affinity map *)

(** C10. An iteration that ends with [assigned = false] leaves the store,
    the arrays of both [trackState] and [trackMap], and the affinity map as
    they were. *)
Theorem drop_is_atomic (n : nat) (a : addr) (st st' : State) :
  step n a st = (st', false) -> st' = st.
Proof. intros H. by apply step_outcome in H. Qed.

(** The last note of [crowded] is such a note. *)
Lemma drop_is_atomic_witness :
  let st := (allocate 4 [0; 1; 2]%nat (init_state (allNotesOf crowded)) []).1 in
  (step 4 3 st).2 = false /\ (step 4 3 st).1 = st.
Proof.
  intros st. split; [vm_compute; reflexivity|].
  apply (drop_is_atomic 4 3 st (step 4 3 st).1).
  vm_compute. reflexivity.
Defined.

Lemma outcome_affinity (a : addr) (st st' : State) (assigned : bool) (o t : nat) :
  outcome a st st' assigned ->
  origTrackToTarget st !! o = Some t -> origTrackToTarget st' !! o = Some t.
Proof.
  destruct assigned; simpl; [|by intros ->].
  intros (idx & name & Hp & _) Ho. rewrite (placed_affinity _ _ _ _ _ Hp).
  destruct (origTrackToTarget st !! origTrack _) eqn:E; [done|].
  rewrite lookup_insert_ne; [done|]. intros <-. congruence.
Qed.

(** C5. An affinity entry that exists at some point of the loop is the
    same after the remaining iterations, whatever they are. *)
Theorem affinity_immutable (n : nat) (todo : list addr) (st : State)
    (dropped : list addr) (o t : nat) :
  origTrackToTarget st !! o = Some t ->
  origTrackToTarget (allocate n todo st dropped).1 !! o = Some t.
Proof.
  revert st dropped. induction todo as [|a todo IH]; intros st dropped Ho; [done|].
  simpl. destruct (step n a st) as [st1 assigned] eqn:Hstep.
  apply IH. eapply outcome_affinity; [|done]. by eapply step_outcome.
Qed.

(** Two simultaneous notes of one source track: the first iteration binds
    the origin to Main Theme, the second one places its note on Chord and
    leaves the binding alone. *)
Lemma affinity_immutable_witness :
  let all := allNotesOf [[mkRawNote 60 0 1 (1 # 2); mkRawNote 72 0 1 (1 # 2)]] in
  let st := (step 2 0 (init_state all)).1 in
  origTrackToTarget st !! 0%nat = Some 0%nat /\
  origTrackToTarget (allocate 2 [1%nat] st []).1 !! 0%nat = Some 0%nat.
Proof.
  intros all st. split; [vm_compute; reflexivity|].
  apply (affinity_immutable 2 [1%nat] st [] 0 0).
  vm_compute. reflexivity.
Defined.

(** ** The two truncation rules *)

Lemma starts_before_not_spans_past (x o : Note) :
  starts_before x o = true -> spans_past x o = false.
Proof.
  intros [H _]%starts_before_true.
  destruct (spans_past x o) eqn:E; [|done].
  apply spans_past_true in E as (_ & _ & E). qarith.
Qed.

(** C6. On a candidate track whose first overlapping note is [ov]: an
    object that the attempt creates or changes has a duration above 0.01
    seconds, and when the rule whose guard holds would leave 0.01 seconds or
    less, the attempt fails and the scan goes on to the next candidate. *)
Theorem truncation_floor (idx : nat) (name : string) (a ov : addr) (st : State) :
  find_overlap (heap st) (deref (heap st) a) (trackState st !!! idx) = Some ov ->
  (forall st' r x',
     try_track idx name a st = Some st' ->
     heap st' !! r = Some x' -> heap st !! r <> Some x' ->
     min_duration < duration x') /\
  (starts_before (deref (heap st) a) (deref (heap st) ov) = true ->
   time (deref (heap st) ov) - time (deref (heap st) a) <= min_duration ->
   try_track idx name a st = None) /\
  (spans_past (deref (heap st) a) (deref (heap st) ov) = true ->
   time (deref (heap st) a) - time (deref (heap st) ov) <= min_duration ->
   try_track idx name a st = None).
Proof.
  intros Hfind. split; [|split].
  - intros st' r x' Htry Hr Hold.
    apply try_track_placed in Htry.
    destruct Htry as [Hnone | ov' Hfind' Hsb Hd | ov' Hfind' Hsp Hd].
    + congruence.
    + cbn [heap record_affinity push_note alloc snd] in Hr.
      apply lookup_snoc_Some in Hr as [[_ Hr]|[_ <-]]; [done|].
      simpl. by apply Qgtb_true in Hd.
    + cbn [heap record_affinity push_note shorten] in Hr.
      rewrite list_lookup_alter in Hr. case_decide; [subst r|done].
      destruct (heap st !! ov'); simplify_eq/=. by apply Qgtb_true in Hd.
  - intros Hsb Hd. unfold try_track. rewrite Hfind.
    unfold truncate_incoming, truncate_existing.
    rewrite Hsb, (starts_before_not_spans_past _ _ Hsb).
    apply Qgtb_false in Hd. by rewrite Hd.
  - intros Hsp Hd. unfold try_track. rewrite Hfind.
    unfold truncate_incoming, truncate_existing. rewrite Hsp.
    destruct (starts_before _ _) eqn:Hsb.
    { apply starts_before_not_spans_past in Hsb. congruence. }
    apply Qgtb_false in Hd. by rewrite Hd.
Qed.

(** Four attempts on Main Theme: a placed note 0-5 shortened to 1 second
    for a note 1-3, and not shortened to 0.005 seconds; a note 0-3
    truncated to 1 second before a placed note 1-2, and a note 0.995-3 not
    truncated to 0.005 seconds. *)
Lemma truncation_floor_witness :
  let long := mkNote 60 0 5 (1 # 2) 5 0 in
  let short := mkNote 60 1 1 (1 # 2) 2 0 in
  let st1 := one_placed long (mkNote 70 1 2 (1 # 2) 3 1) in
  let st2 := one_placed long (mkNote 70 (1 # 200) 2 (1 # 2) (401 # 200) 1) in
  let st3 := one_placed short (mkNote 70 0 3 (1 # 2) 3 1) in
  let st4 := one_placed short (mkNote 70 (199 # 200) 2 (1 # 2) (599 # 200) 1) in
  (exists st', try_track 0 "Main Theme" 1 st1 = Some st' /\
     min_duration < duration (deref (heap st') 0)) /\
  try_track 0 "Main Theme" 1 st2 = None /\
  (exists st', try_track 0 "Main Theme" 1 st3 = Some st' /\
     min_duration < duration (deref (heap st') 2)) /\
  try_track 0 "Main Theme" 1 st4 = None.
Proof.
  intros long short st1 st2 st3 st4.
  assert (forall st, st ∈ [st1; st2; st3; st4] ->
    find_overlap (heap st) (deref (heap st) 1) (trackState st !!! 0%nat)
      = Some 0%nat) as Hfind.
  { intros st. rewrite !elem_of_cons, elem_of_nil.
    intros [->|[->|[->|[->|[]]]]]; vm_compute; reflexivity. }
  split; [|split; [|split]].
  - destruct (try_track 0 "Main Theme" 1 st1) as [st'|] eqn:Htry;
      [|by vm_compute in Htry].
    exists st'. split; [done|].
    apply (proj1 (truncation_floor 0 "Main Theme" 1 0 st1
                    (Hfind st1 ltac:(set_solver))) st' 0%nat); [done|..].
    + vm_compute in Htry. injection Htry as <-. reflexivity.
    + vm_compute in Htry. injection Htry as <-. vm_compute. discriminate.
  - apply (proj2 (proj2 (truncation_floor 0 "Main Theme" 1 0 st2
                           (Hfind st2 ltac:(set_solver))))).
    + vm_compute. reflexivity.
    + vm_compute. discriminate.
  - destruct (try_track 0 "Main Theme" 1 st3) as [st'|] eqn:Htry;
      [|by vm_compute in Htry].
    exists st'. split; [done|].
    apply (proj1 (truncation_floor 0 "Main Theme" 1 0 st3
                    (Hfind st3 ltac:(set_solver))) st' 2%nat); [done|..].
    + vm_compute in Htry. injection Htry as <-. reflexivity.
    + vm_compute. discriminate.
  - apply (proj1 (proj2 (truncation_floor 0 "Main Theme" 1 0 st4
                           (Hfind st4 ltac:(set_solver))))).
    + vm_compute. reflexivity.
    + vm_compute. discriminate.
Defined.

(** ** The suggestion by pitch *)

Lemma Math_max_pitches (l : list Note) :
  (l = [] /\ JS.Math_max (map (fun n => JS.Num (JS.Fin (midi n))) l) = JS.NegInf)
  \/ exists m,
       JS.Math_max (map (fun n => JS.Num (JS.Fin (midi n))) l) = JS.Fin m /\
       (exists n, n ∈ l /\ midi n = m) /\
       (forall n, n ∈ l -> (midi n <= m)%Z).
Proof.
  induction l as [|x l IH]; [by left|]. right. simpl.
  destruct IH as [[-> ->]|(m & -> & (n & Hn & Hm) & Hmax)]; simpl.
  - exists (midi x). split; [done|]. split.
    + exists x. split; [left|done].
    + intros n [->|Hn]%elem_of_cons; [lia|by apply elem_of_nil in Hn].
  - exists (Z.max (midi x) m). split; [done|]. split.
    + destruct (Z.max_spec (midi x) m) as [[_ ->]|[_ ->]].
      * exists n. split; [by right|done].
      * exists x. split; [left|done].
    + intros n' [->|Hn']%elem_of_cons; [lia|].
      specialize (Hmax n' Hn'). lia.
Qed.

Lemma Math_min_undefined (ts : list Q) (z : Z) :
  JS.strict_eq (JS.Fin z)
    (JS.Math_min (map (fun _ : Q => JS.Undefined) ts)) = false.
Proof. destruct ts; reflexivity. Qed.

Lemma elem_of_notesAtTime (allNotes : list Note) (note n : Note) :
  n ∈ List.filter (fun n => Qeq_bool (time n) (time note)) allNotes
  <-> n ∈ allNotes /\ time n == time note.
Proof. by rewrite !list_elem_of_In, filter_In, Qeq_bool_iff. Qed.

(** C4. The suggestion for a note without affinity is 0 (Main Theme) when
    its pitch is the highest among the notes that start exactly when it
    does, and 1 (Chord) otherwise; it is never 2 (Base), and the candidates
    are tried from the suggested track on. *)
Theorem pitch_suggestion (allNotes : list Note) (note : Note) :
  (idxByPitch allNotes note = 0%nat <-> highest_at_start allNotes note) /\
  (idxByPitch allNotes note = 0%nat \/ idxByPitch allNotes note = 1%nat) /\
  idxByPitch allNotes note <> 2%nat /\
  tryOrderOf allNotes None note =
    (if decide (idxByPitch allNotes note = 0%nat)
     then ["Main Theme"; "Chord"; "Base"]
     else ["Chord"; "Main Theme"; "Base"])%string.
Proof.
  assert (idxByPitch allNotes note =
          if JS.strict_eq (JS.Fin (midi note))
               (JS.Math_max (map (fun n => JS.Num (JS.Fin (midi n)))
                  (List.filter (fun n => Qeq_bool (time n) (time note)) allNotes)))
          then 0%nat else 1%nat) as Hidx.
  { unfold idxByPitch. by rewrite Math_min_undefined. }
  assert (idxByPitch allNotes note = 0%nat <-> highest_at_start allNotes note)
    as Hiff.
  { rewrite Hidx. unfold highest_at_start.
    destruct (Math_max_pitches
                (List.filter (fun n => Qeq_bool (time n) (time note)) allNotes))
      as [[Hnil ->]|(m & -> & (n & Hn & Hm) & Hmax)]; simpl.
    - split; [done|]. intros [(n & Hn & Ht & _) _]. exfalso.
      assert (n ∈ List.filter (fun n => Qeq_bool (time n) (time note)) allNotes)
        as Hin by by apply elem_of_notesAtTime.
      rewrite Hnil in Hin. by apply elem_of_nil in Hin.
    - apply elem_of_notesAtTime in Hn as [Hn Ht].
      destruct (Z.eqb_spec (midi note) m) as [Heq|Hne].
      + split; [intros _|done]. split.
        * exists n. split; [done|]. split; [done|congruence].
        * intros n' Hn' Ht'. rewrite Heq. apply Hmax.
          by apply elem_of_notesAtTime.
      + split; [done|]. intros [(n' & Hn' & Ht' & Hm') Hle]. exfalso.
        apply Hne. apply Z.le_antisymm.
        * rewrite <- Hm'. apply Hmax. by apply elem_of_notesAtTime.
        * rewrite <- Hm. by apply Hle. }
  split; [done|]. split; [|split].
  - rewrite Hidx. destruct (JS.strict_eq _ _); auto.
  - rewrite Hidx. destruct (JS.strict_eq _ _); discriminate.
  - unfold tryOrderOf. rewrite Hidx.
    destruct (JS.strict_eq _ _); reflexivity.
Qed.

Lemma idxByPitch_keys (l l' : list Note) (note note' : Note) :
  Forall2 (fun x y => time x = time y /\ midi x = midi y) l l' ->
  time note = time note' -> midi note = midi note' ->
  idxByPitch l note = idxByPitch l' note'.
Proof.
  intros Hll Ht Hm. unfold idxByPitch. rewrite !Math_min_undefined, Hm, Ht.
  assert (map (fun n => JS.Num (JS.Fin (midi n)))
            (List.filter (fun n => Qeq_bool (time n) (time note')) l)
          = map (fun n => JS.Num (JS.Fin (midi n)))
              (List.filter (fun n => Qeq_bool (time n) (time note')) l'))
    as ->; [|done].
  induction Hll as [|x y l l' [Hxt Hxm] _ IH]; [done|].
  simpl. rewrite Hxt. destruct (Qeq_bool _ _); simpl; by rewrite ?Hxm, IH.
Qed.

(** In the loop, a note whose origin has no affinity yet is scanned in the
    order that its pitch suggests among all the notes of the input. *)
Lemma suggestion_in_run (tracks : list (list RawNote)) (i : nat) (note : Note) :
  let all := allNotesOf tracks in
  let st := (allocate (length all) (seq 0 i) (init_state all) []).1 in
  all !! i = Some note ->
  origTrackToTarget st !! origTrack note = None ->
  step (length all) i st = scan None i (tryOrderOf all None note) st.
Proof.
  intros all st Hnote Haff.
  assert (notes_inv all i st) as Hinv.
  { subst st. destruct (allocate _ _ _ _) as [st' dropped'] eqn:Hrun.
    assert (0 + i <= length all)%nat as Hle
      by (apply lookup_lt_Some in Hnote; simpl; lia).
    exact (proj1 (proj2 (allocate_invariant all
      (StronglySorted_time_sorted _ (allNotesOf_StronglySorted tracks))
      i 0 _ _ _ _ Hle (init_state_shape all)
      (init_state_notes_inv all (allNotesOf_wf tracks)) Hrun))). }
  assert (heap st !! i = Some note) as Hi.
  { rewrite <- Hnote. apply (inv_pending _ _ _ Hinv); [lia|].
    by eapply lookup_lt_Some. }
  unfold step. rewrite (deref_lookup _ _ _ Hi), Haff. cbn [fast_path].
  f_equal. unfold tryOrderOf.
  assert (idxByPitch (take (length all) (heap st)) note = idxByPitch all note)
    as ->; [|done].
  apply idxByPitch_keys; [|done..].
  apply Forall2_same_length_lookup_2.
  - rewrite length_take_le; [done|by rewrite (inv_size _ _ _ Hinv)].
  - intros a x y [Hx _]%lookup_take_Some Hy.
    by apply (inv_keys _ _ _ Hinv a).
Qed.

(** ** Scenarios *)

Lemma concat_imap_replicate_nil {A B} (f : nat -> list A -> list B) (k : nat) :
  (forall i, f i [] = []) -> concat (imap f (replicate k [])) = [].
Proof.
  revert f. induction k as [|k IH]; intros f Hf; [done|].
  simpl. rewrite Hf. simpl. apply IH. intros i. apply Hf.
Qed.

Lemma collectNotes_single (k m : nat) (l : list RawNote) :
  collectNotes (replicate k [] ++ [l] ++ replicate m [])
  = map (note_of_raw k) l.
Proof.
  unfold collectNotes. rewrite imap_app, concat_app, length_replicate.
  rewrite concat_imap_replicate_nil by done. simpl.
  rewrite concat_imap_replicate_nil by done.
  by rewrite app_nil_r, Nat.add_0_r.
Qed.

(** The two cases of an iteration, by the affinity of the origin. *)
Lemma step_unbound (n : nat) (a : addr) (st : State) (note : Note) :
  deref (heap st) a = note ->
  origTrackToTarget st !! origTrack note = None ->
  step n a st = scan None a (tryOrderOf (take n (heap st)) None note) st.
Proof. intros <- Haff. unfold step. by rewrite Haff. Qed.

Lemma step_bound (n : nat) (a : addr) (st : State) (note : Note) (p : nat) :
  deref (heap st) a = note ->
  origTrackToTarget st !! origTrack note = Some p ->
  step n a st =
    (let '(st1, assigned) := fast_path (Some p) a st in
     if assigned then (st1, true)
     else scan (Some p) a (tryOrderOf (take n (heap st)) (Some p) note) st1).
Proof. intros <- Haff. unfold step. by rewrite Haff. Qed.

(** Scenario A from the sorted notes on: the source track [k] gets bound to
    Main Theme by the higher note, and the lower note moves on to Chord. *)
Lemma two_simultaneous_notes (k : nat) (v60 v72 : Q) (tracks : list (list RawNote)) :
  allNotesOf tracks
    = [note_of_raw k (mkRawNote 72 0 1 v72); note_of_raw k (mkRawNote 60 0 1 v60)] ->
  result tracks
    = ([note_of_raw k (mkRawNote 72 0 1 v72)],
       [note_of_raw k (mkRawNote 60 0 1 v60)], [], []).
Proof.
  intros Hall. unfold result, processMidi, droppedNotes, run. rewrite Hall.
  set (N72 := note_of_raw k (mkRawNote 72 0 1 v72)).
  set (N60 := note_of_raw k (mkRawNote 60 0 1 v60)).
  cbn [length seq allocate].
  rewrite (step_unbound _ _ _ N72) by reflexivity.
  set (st1 := {| heap := [N72; N60];
                 trackState := [[0%nat]; []; []];
                 trackMap := trackMap (push_note 0 "Main Theme" 0
                                         (init_state [N72; N60]));
                 origTrackToTarget := <[k := 0%nat]> ∅ |}).
  match goal with
  | |- context [scan None 0%nat ?t ?s] =>
      assert (scan None 0%nat t s = (st1, true)) as ->
        by (vm_compute; reflexivity)
  end.
  rewrite (step_bound _ _ _ N60 0) by (reflexivity || apply lookup_insert_eq).
  vm_compute. reflexivity.
Qed.

(** C8. Two notes of one source track that start together at 0.0 and last
    1.0, of pitches 60 and 72, in either order, with any velocities, the
    source track being any one of the input and the others empty: the note
    of pitch 72 is alone on Main Theme, the note of pitch 60 is alone on
    Chord, both as they came, and nothing is dropped. *)
Theorem scenario_A (k m : nat) (v60 v72 : Q) :
  let n60 := mkRawNote 60 0 1 v60 in
  let n72 := mkRawNote 72 0 1 v72 in
  result (replicate k [] ++ [[n60; n72]] ++ replicate m [])
    = ([note_of_raw k n72], [note_of_raw k n60], [], []) /\
  result (replicate k [] ++ [[n72; n60]] ++ replicate m [])
    = ([note_of_raw k n72], [note_of_raw k n60], [], []).
Proof.
  split; apply two_simultaneous_notes; unfold allNotesOf;
    rewrite collectNotes_single; vm_compute; reflexivity.
Qed.

(** The scan never touches the array of the preferred track. *)
Lemma scan_leaves_preferred (p : nat) (a : addr) (tryOrder : list string)
    (st st' : State) (assigned : bool) :
  scan (Some p) a tryOrder st = (st', assigned) ->
  trackState st' !! p = trackState st !! p.
Proof.
  induction tryOrder as [|name rest IH]; cbn [scan].
  - by intros [= <- <-].
  - case_bool_decide as Hskip; [done|].
    destruct (try_track _ _ _ _) as [st1|] eqn:Htry; [|done].
    intros [= <- <-]. apply try_track_placed in Htry.
    destruct (placed_trackState _ _ _ _ _ Htry) as (x & -> & _).
    apply list_lookup_alter_ne. intros Heq. apply Hskip. by rewrite Heq.
Qed.

(** A note whose affinity track is busy is not put there, by neither
    truncation rule: the array of that track is as it was. *)
Lemma busy_affinity_track_untouched (n : nat) (a : addr) (st : State)
    (p : nat) (ov : addr) :
  origTrackToTarget st !! origTrack (deref (heap st) a) = Some p ->
  find_overlap (heap st) (deref (heap st) a) (trackState st !!! p) = Some ov ->
  trackState (step n a st).1 !! p = trackState st !! p.
Proof.
  intros Haff Hbusy. unfold step. rewrite Haff. cbn [fast_path].
  rewrite Hbusy.
  destruct (scan _ _ _ _) as [st' assigned] eqn:Hscan.
  by apply scan_leaves_preferred in Hscan.
Qed.


(** * Further properties of the allocator *)

(** ** The keys and the order of the returned tracks *)

Lemma shape_lookup (st : State) (name : string) :
  shape st -> (is_Some (trackMap st !! name) <-> name ∈ TRACK_NAMES).
Proof.
  intros Hs. split; [apply (shape_keys _ Hs)|].
  intros [k Hk]%list_elem_of_lookup.
  rewrite (shape_map _ Hs k name Hk). apply lookup_lt_is_Some.
  rewrite (shape_tracks _ Hs). by eapply slot_lt.
Qed.

(** X1. The returned map has the three track names as its keys, and no
    other: a track that received nothing is there, empty. *)
Theorem returned_keys (tracks : list (list RawNote)) (name : string) :
  is_Some (processMidi tracks !! name) <-> name ∈ TRACK_NAMES.
Proof.
  destruct (processMidi_invariant tracks) as (Hs & _ & _).
  unfold processMidi, finalize. rewrite lookup_fmap, fmap_is_Some.
  by apply shape_lookup.
Qed.

Lemma sort_by_time_StronglySorted (h : list Note) (l : list addr) :
  time_ordered h
    (JS.sort (fun x y => time (deref h x) - time (deref h y)) l).
Proof.
  eapply StronglySorted_mono; [|apply sort_StronglySorted].
  - intros r s H. simpl in H. lra.
  - intros r s H. simpl in *. lra.
  - intros r s t H1 H2. simpl in *. lra.
Qed.

Lemma StronglySorted_fmap {A B} (f : A -> B) (R : B -> B -> Prop) (l : list A) :
  StronglySorted (fun x y => R (f x) (f y)) l -> StronglySorted R (map f l).
Proof.
  induction 1 as [|x l _ IH Hx]; simpl; constructor; [done|].
  change (map f l) with (f <$> l). by apply Forall_fmap.
Qed.

(** X2. The notes of every returned track are in the order of their start
    times. *)
Theorem returned_tracks_sorted (tracks : list (list RawNote)) (name : string)
    (notes : list Note) :
  processMidi tracks !! name = Some notes ->
  StronglySorted (fun x y => time x <= time y) notes.
Proof.
  unfold processMidi, finalize. rewrite lookup_fmap.
  destruct (trackMap _ !! name) as [l|]; [|done]. intros [= <-].
  apply StronglySorted_fmap, sort_by_time_StronglySorted.
Qed.

(** Three notes of one source track given out of order come back in
    order. *)
Lemma returned_tracks_sorted_witness :
  StronglySorted (fun x y => time x <= time y)
    [mkNote 64 0 1 (1 # 2) (0 + 1) 0; mkNote 62 1 1 (1 # 2) (1 + 1) 0;
     mkNote 60 2 1 (1 # 2) (2 + 1) 0].
Proof.
  apply (returned_tracks_sorted
           [[mkRawNote 60 2 1 (1 # 2); mkRawNote 62 1 1 (1 # 2);
             mkRawNote 64 0 1 (1 # 2)]] "Main Theme").
  vm_compute. reflexivity.
Defined.

(** ** The arrays along a call *)

Lemma StronglySorted_snoc {A} (R : A -> A -> Prop) (l : list A) (x : A) :
  StronglySorted R l -> Forall (fun y => R y x) l ->
  StronglySorted R (l ++ [x]).
Proof.
  induction 1 as [|y l Hl IH Hy]; simpl; intros Hx.
  - repeat constructor.
  - inversion Hx; subst. constructor; [by apply IH|].
    apply Forall_app. split; [done|]. by constructor.
Qed.

(** A sort finds nothing to do on an array that is in order. *)
Lemma sort_ordered {A} (cmp : A -> A -> Q) (l : list A) :
  StronglySorted (fun x y => cmp x y <= 0) l -> JS.sort cmp l = l.
Proof.
  unfold JS.sort. induction 1 as [|x l _ IH Hx]; [done|].
  simpl. rewrite IH. destruct l as [|y l]; [done|]. simpl.
  inversion Hx as [|? ? Hxy _]; subst.
  by rewrite (proj2 (Qle_bool_iff _ _) Hxy).
Qed.

Lemma concat_alter_snoc (ts : list (list addr)) (idx : nat) (x : addr) :
  (idx < length ts)%nat ->
  concat (alter (fun l => l ++ [x]) idx ts) ≡ₚ x :: concat ts.
Proof.
  revert idx. induction ts as [|l ts IH]; intros idx Hidx; simpl in *; [lia|].
  destruct idx as [|idx].
  - simpl. rewrite <- app_assoc. symmetry. apply Permutation_middle.
  - change (l ++ concat (alter (fun l => l ++ [x]) idx ts)
            ≡ₚ x :: l ++ concat ts).
    rewrite IH by lia. by rewrite <- Permutation_middle.
Qed.

Lemma elem_of_trackState (st : State) (r : addr) :
  r ∈ concat (trackState st) <->
  exists k l, trackState st !! k = Some l /\ r ∈ l.
Proof.
  rewrite list_elem_of_In, in_concat. split.
  - intros (l & Hl & Hr). apply list_elem_of_In in Hl, Hr.
    apply list_elem_of_lookup in Hl as [k Hk]. eauto.
  - intros (k & l & Hk & Hr). exists l.
    rewrite <- !list_elem_of_In. split; [|done].
    by eapply list_elem_of_lookup_2.
Qed.

Section MoreInvariant.
Variable allNotes : list Note.
Hypothesis allNotes_sorted : time_sorted allNotes.

(** The addresses held by the arrays are those of notes already
    processed, which start no later than the notes to come. *)
Lemma placed_before (i : nat) (st : State) (k : nat) (l : list addr) (r : addr)
    (y : Note) :
  notes_inv allNotes i st -> trackState st !! k = Some l -> r ∈ l ->
  allNotes !! i = Some y ->
  (r < i)%nat /\ time (deref (heap st) r) <= time y.
Proof.
  intros Hinv Hl Hr Hy.
  destruct (inv_refs _ _ _ Hinv k l r Hl Hr) as (Hlt & Hri & b & z & Hb & Hz & Ht).
  rewrite (inv_size _ _ _ Hinv) in Hlt. split; [lia|].
  rewrite Ht. apply (allNotes_sorted b i); [lia|done..].
Qed.

Lemma init_state_tracks_inv : tracks_inv allNotes (init_state allNotes).
Proof.
  split; simpl.
  - constructor.
  - intros k l Hk. apply list_elem_of_lookup_2 in Hk.
    unfold TRACK_NAMES in Hk. simpl in Hk.
    rewrite !elem_of_cons, elem_of_nil in Hk.
    destruct Hk as [->|[->|[->|[]]]]; constructor.
  - intros r x y Hx Hy. rewrite Hx in Hy. injection Hy as <-.
    apply derives_refl.
Qed.

Lemma placed_tracks_inv (i idx : nat) (name : string) (st st' : State) :
  shape st -> notes_inv allNotes i st -> tracks_inv allNotes st ->
  (i < length allNotes)%nat -> slot idx name ->
  placed idx name i st st' -> tracks_inv allNotes st'.
Proof.
  intros Hshape Hinv [Hnodup Hord Hprov] Hi Hslot Hp.
  destruct (lookup_lt_is_Some_2 allNotes i Hi) as [y Hy].
  assert (heap st !! i = Some y) as Hhy
    by (rewrite <- Hy; by apply (inv_pending _ _ _ Hinv)).
  pose proof (deref_lookup _ _ _ Hhy) as Hnote.
  assert (trackState st !! idx = Some (trackState st !!! idx)) as Hl.
  { apply list_lookup_lookup_total_lt. rewrite (shape_tracks _ Hshape).
    by eapply slot_lt. }
  assert (idx < length (trackState st))%nat as Hidx
    by (rewrite (shape_tracks _ Hshape); by eapply slot_lt).
  assert (i ∉ concat (trackState st)) as Hfresh.
  { intros (k & l & Hk & Hr)%elem_of_trackState.
    destruct (placed_before _ _ _ _ _ _ Hinv Hk Hr Hy). lia. }
  destruct Hp as [Hfind | ov Hfind Hsb Hd | ov Hfind Hsp Hd].
  - split; cbn [heap trackState record_affinity push_note]; [| |done].
    + rewrite concat_alter_snoc by done. by constructor.
    + intros k l' Hk.
      apply lookup_alter_snoc in Hk as [[_ Hk]|[-> (l & Hk & ->)]];
        [by eapply Hord|].
      apply StronglySorted_snoc; [by eapply Hord|].
      apply Forall_forall. intros r Hr. rewrite Hnote.
      by destruct (placed_before _ _ _ _ _ _ Hinv Hk Hr Hy).
  - exfalso. apply find_overlap_Some in Hfind as [Hov _].
    destruct (placed_before _ _ _ _ _ _ Hinv Hl Hov Hy) as [_ Hle].
    apply starts_before_true in Hsb as [Hsb _]. rewrite Hnote in Hsb. lra.
  - apply find_overlap_Some in Hfind as [Hov _].
    destruct (inv_refs _ _ _ Hinv _ _ _ Hl Hov) as (Hov1 & _).
    destruct (placed_before _ _ _ _ _ _ Hinv Hl Hov Hy) as [Hovi _].
    apply spans_past_true in Hsp as (Hsp1 & _ & _).
    apply Qgtb_true in Hd.
    pose proof (inv_wf _ _ _ Hinv ov _ (lookup_deref _ _ Hov1)) as Hwfov.
    set (d := time (deref (heap st) i) - time (deref (heap st) ov)) in *.
    assert (Htime : forall r,
      time (deref (alter (shortened d) ov (heap st)) r) = time (deref (heap st) r)).
    { intros r. destruct (decide (ov = r)) as [<-|Hner].
      - by rewrite deref_alter_eq.
      - by rewrite deref_alter_ne. }
    split; cbn [heap trackState record_affinity push_note shorten].
    + rewrite concat_alter_snoc by done. by constructor.
    + assert (forall k l, trackState st !! k = Some l ->
                time_ordered (alter (shortened d) ov (heap st)) l) as Hord'.
      { intros k l Hk. eapply StronglySorted_mono; [|by eapply Hord].
        intros r s. by rewrite !Htime. }
      intros k l' Hk.
      apply lookup_alter_snoc in Hk as [[_ Hk]|[-> (l & Hk & ->)]];
        [by eapply Hord'|].
      apply StronglySorted_snoc; [by eapply Hord'|].
      apply Forall_forall. intros r Hr. rewrite !Htime, Hnote.
      by destruct (placed_before _ _ _ _ _ _ Hinv Hk Hr Hy).
    + intros r x w. rewrite list_lookup_alter.
      case_decide; [|apply Hprov].
      subst r. rewrite (lookup_deref _ _ Hov1). intros [= <-] Hw.
      destruct (Hprov ov _ w (lookup_deref _ _ Hov1) Hw)
        as (? & ? & ? & ? & Hdur & _).
      unfold derives. simpl. repeat split; [done..| |by right].
      unfold d. qarith.
Qed.

Lemma allocate_tracks_inv (m i : nat) (st st' : State)
    (dropped dropped' : list addr) :
  (i + m <= length allNotes)%nat ->
  shape st -> notes_inv allNotes i st -> tracks_inv allNotes st ->
  allocate (length allNotes) (seq i m) st dropped = (st', dropped') ->
  tracks_inv allNotes st'.
Proof.
  revert i st dropped.
  induction m as [|m IH]; intros i st dropped Him Hs Hinv Htinv; simpl.
  - by intros [= <- <-].
  - destruct (step _ _ _) as [st1 assigned] eqn:Hstep.
    pose proof (step_outcome _ _ _ _ _ Hstep) as Hout.
    apply (step_invariant allNotes allNotes_sorted) in Hstep
      as (Hs1 & Hinv1 & _); [|lia|done..].
    apply IH; [lia|done..|].
    destruct assigned; simpl in Hout; [|by subst st1].
    destruct Hout as (idx & name & Hp & Hslot).
    apply (placed_tracks_inv i idx name st st1 Hs Hinv Htinv);
      [lia|apply Hslot, Hs|done].
Qed.
End MoreInvariant.

Lemma stateBefore_invariant (tracks : list (list RawNote)) (i : nat) :
  (i <= length (allNotesOf tracks))%nat ->
  shape (stateBefore tracks i) /\
  notes_inv (allNotesOf tracks) i (stateBefore tracks i) /\
  tracks_inv (allNotesOf tracks) (stateBefore tracks i).
Proof.
  intros Hi. unfold stateBefore.
  pose proof (StronglySorted_time_sorted _ (allNotesOf_StronglySorted tracks))
    as Hsorted.
  pose proof (init_state_shape (allNotesOf tracks)) as Hs0.
  pose proof (init_state_notes_inv _ (allNotesOf_wf tracks)) as Hinv0.
  destruct (allocate _ _ _ _) as [st' dropped'] eqn:Hrun.
  destruct (allocate_invariant _ Hsorted i 0 _ _ _ _ Hi Hs0 Hinv0 Hrun)
    as (Hs & Hinv & _).
  split; [done|]. split; [done|].
  exact (allocate_tracks_inv _ Hsorted i 0 _ _ _ _ Hi Hs0 Hinv0
           (init_state_tracks_inv _) Hrun).
Qed.

Lemma stateBefore_end (tracks : list (list RawNote)) :
  stateBefore tracks (length (allNotesOf tracks)) = (run (allNotesOf tracks)).1.
Proof. reflexivity. Qed.

(** Sorting arrays that are in order gives them back. *)
Lemma finalize_ordered (st : State) :
  shape st ->
  (forall k l, trackState st !! k = Some l -> time_ordered (heap st) l) ->
  finalize st = map (deref (heap st)) <$> trackMap st.
Proof.
  intros Hs Hord. unfold finalize. apply map_fmap_ext. intros name l Hl.
  f_equal. apply sort_ordered.
  assert (name ∈ TRACK_NAMES) as [k Hk]%list_elem_of_lookup
    by (apply (shape_keys _ Hs); eauto).
  rewrite (shape_map _ Hs k name Hk) in Hl.
  eapply StronglySorted_mono; [|exact (Hord k l Hl)].
  intros r s H. simpl in *. lra.
Qed.

(** X3. When the loop ends every array of [trackMap] is already in the
    order of the start times, so the sort of lines 208-210 moves nothing:
    a returned track lists its notes in the order in which they were
    placed. *)
Theorem final_sort_moves_nothing (tracks : list (list RawNote)) :
  processMidi tracks
  = map (deref (heap (run (allNotesOf tracks)).1))
      <$> trackMap (run (allNotesOf tracks)).1.
Proof.
  destruct (stateBefore_invariant tracks (length (allNotesOf tracks)))
    as (Hs & _ & Htinv); [done|].
  rewrite stateBefore_end in Hs, Htinv.
  apply finalize_ordered; [done|]. apply (tinv_ordered _ _ Htinv).
Qed.

Lemma outcome_grows (a : addr) (st st' : State) (assigned : bool) (k : nat)
    (l : list addr) :
  outcome a st st' assigned -> trackState st !! k = Some l ->
  exists l', trackState st' !! k = Some (l ++ l').
Proof.
  destruct assigned; simpl.
  - intros (idx & name & Hp & _) Hl.
    destruct (placed_trackState _ _ _ _ _ Hp) as (x & -> & _).
    destruct (decide (idx = k)) as [->|Hne].
    + exists [x]. by rewrite list_lookup_alter_eq, Hl.
    + exists []. by rewrite list_lookup_alter_ne, app_nil_r.
  - intros -> Hl. exists []. by rewrite app_nil_r.
Qed.

Lemma allocate_grows (n : nat) (todo : list addr) (st : State)
    (dropped : list addr) (k : nat) (l : list addr) :
  trackState st !! k = Some l ->
  exists l', trackState (allocate n todo st dropped).1 !! k = Some (l ++ l').
Proof.
  revert st dropped l.
  induction todo as [|a todo IH]; intros st dropped l Hl; simpl.
  - exists []. by rewrite app_nil_r.
  - destruct (step n a st) as [st1 assigned] eqn:Hstep.
    apply step_outcome in Hstep.
    destruct (outcome_grows _ _ _ _ _ _ Hstep Hl) as [l1 Hl1].
    destruct (IH st1 (if assigned then dropped else dropped ++ [a]) _ Hl1)
      as [l2 Hl2].
    exists (l1 ++ l2). by rewrite app_assoc.
Qed.

Lemma allocate_app (n : nat) (l1 l2 : list addr) (st : State)
    (dropped : list addr) :
  allocate n (l1 ++ l2) st dropped
  = allocate n l2 (allocate n l1 st dropped).1 (allocate n l1 st dropped).2.
Proof.
  revert st dropped. induction l1 as [|a l1 IH]; intros st dropped; [done|].
  simpl. destruct (step n a st) as [st1 assigned]. apply IH.
Qed.

Lemma stateBefore_add (tracks : list (list RawNote)) (i m : nat) :
  stateBefore tracks (i + m)
  = (allocate (length (allNotesOf tracks)) (seq i m) (stateBefore tracks i)
       (allocate (length (allNotesOf tracks)) (seq 0 i)
          (init_state (allNotesOf tracks)) []).2).1.
Proof. unfold stateBefore. by rewrite seq_app, allocate_app. Qed.

(** X4. No iteration takes a note off a track or moves it: an array of
    [trackState] at some point of a call is the beginning of what it is at
    any later point. *)
Theorem arrays_only_grow (tracks : list (list RawNote)) (i j k : nat)
    (l : list addr) :
  (i <= j)%nat ->
  trackState (stateBefore tracks i) !! k = Some l ->
  exists l', trackState (stateBefore tracks j) !! k = Some (l ++ l').
Proof.
  intros Hij Hl. replace j with (i + (j - i))%nat by lia.
  rewrite stateBefore_add. by apply allocate_grows.
Qed.

(** After the first note of [spanned], Main Theme holds address 0; after
    the three others it still does, and them only. *)
Lemma arrays_only_grow_witness :
  exists l', trackState (stateBefore spanned 4) !! 0%nat = Some ([0%nat] ++ l').
Proof.
  apply (arrays_only_grow spanned 1 4 0 [0%nat]); [lia|].
  vm_compute. reflexivity.
Defined.

(** X5. In a call the first truncation rule (lines 164-180) never fires:
    the notes on the tracks start no later than the note at hand, so its
    guard fails against each of them. *)
Theorem incoming_never_truncated (tracks : list (list RawNote)) (i : nat)
    (note : Note) (k : nat) (l : list addr) (ov : addr) (idx : nat)
    (name : string) :
  allNotesOf tracks !! i = Some note ->
  trackState (stateBefore tracks i) !! k = Some l -> ov ∈ l ->
  truncate_incoming idx name i ov (stateBefore tracks i) = None.
Proof.
  intros Hnote Hl Hov.
  destruct (stateBefore_invariant tracks i) as (_ & Hinv & _).
  { apply lookup_lt_Some in Hnote. lia. }
  pose proof (StronglySorted_time_sorted _ (allNotesOf_StronglySorted tracks))
    as Hsorted.
  destruct (placed_before _ Hsorted _ _ _ _ _ _ Hinv Hl Hov Hnote) as [_ Hle].
  assert (heap (stateBefore tracks i) !! i = Some note) as Hi.
  { rewrite <- Hnote. apply (inv_pending _ _ _ Hinv); [lia|].
    by eapply lookup_lt_Some. }
  unfold truncate_incoming. rewrite (deref_lookup _ _ _ Hi).
  destruct (starts_before _ _) eqn:Hsb; [|done].
  apply starts_before_true in Hsb as [Hsb _]. lra.
Qed.

(** The second note of [alone] against the first, which is on Main
    Theme. *)
Lemma incoming_never_truncated_witness :
  truncate_incoming 0 "Main Theme" 1 0 (stateBefore alone 1) = None.
Proof.
  apply (incoming_never_truncated alone 1 (mkNote 70 1 2 (1 # 2) (1 + 2) 0)
           0 [0%nat] 0 0 "Main Theme").
  - vm_compute. reflexivity.
  - vm_compute. reflexivity.
  - apply list_elem_of_here.
Defined.

(** ** When a note is dropped, and where a bound note goes *)

Lemma tryOrderOf_covers (allNotes : list Note) (preferIdx : option nat)
    (note : Note) (k : nat) (name : string) :
  (forall p, preferIdx = Some p -> (p < 3)%nat) ->
  slot k name -> name ∈ tryOrderOf allNotes preferIdx note.
Proof.
  intros Hp Hk. apply list_elem_of_In.
  assert (In name TRACK_NAMES) as Hin
    by (apply list_elem_of_In, list_elem_of_lookup; eauto).
  revert Hin. unfold tryOrderOf. destruct preferIdx as [p|].
  - specialize (Hp p eq_refl).
    destruct p as [|[|[|p]]]; [| | |lia]; vm_compute; tauto.
  - destruct (idxByPitch_cases allNotes note) as [-> | [-> | ->]];
      vm_compute; tauto.
Qed.

Lemma scan_dropped (preferIdx : option nat) (a : addr) (tryOrder : list string)
    (st st' : State) (name : string) :
  scan preferIdx a tryOrder st = (st', false) ->
  name ∈ tryOrder -> preferIdx <> Some (JS.indexOf name TRACK_NAMES) ->
  try_track (JS.indexOf name TRACK_NAMES) name a st = None.
Proof.
  induction tryOrder as [|name' rest IH]; cbn [scan]; intros Hscan Hin Hne.
  - by apply elem_of_nil in Hin.
  - apply elem_of_cons in Hin as [->|Hin].
    + rewrite bool_decide_eq_false_2 in Hscan by done.
      by destruct (try_track _ _ _ _).
    + case_bool_decide; [by apply IH|].
      destruct (try_track _ name' _ _); [done|]. by apply IH.
Qed.

Lemma try_track_None (idx : nat) (name : string) (a : addr) (st : State) :
  try_track idx name a st = None ->
  exists ov, ov ∈ trackState st !!! idx /\
             overlaps (deref (heap st) a) (deref (heap st) ov) = true.
Proof.
  unfold try_track.
  destruct (find_overlap _ _ _) as [ov|] eqn:Hfind; [|done].
  intros _. exists ov. by apply find_overlap_Some in Hfind.
Qed.

(** An iteration that drops its note has found an overlapping note on
    each of the three tracks. *)
Lemma step_dropped_busy (n : nat) (a : addr) (st st' : State) (k : nat)
    (name : string) :
  affinity_ok st -> step n a st = (st', false) -> slot k name ->
  exists ov, ov ∈ trackState st !!! k /\
             overlaps (deref (heap st) a) (deref (heap st) ov) = true.
Proof.
  intros Hok Hstep Hk. unfold step in Hstep.
  pose proof (slot_indexOf name) as Hidx.
  assert (JS.indexOf name TRACK_NAMES = k) as Hkk.
  { eapply slot_inj; [apply Hidx|done].
    apply list_elem_of_lookup. by exists k. }
  destruct (origTrackToTarget st !! _) as [p|] eqn:Haff.
  - pose proof (Hok _ _ Haff) as Hp. cbn [fast_path] in Hstep.
    destruct (find_overlap _ _ (trackState st !!! p)) as [ov|] eqn:Hfind;
      [|done].
    destruct (decide (p = k)) as [->|Hne].
    + exists ov. by apply find_overlap_Some in Hfind.
    + apply try_track_None with (name := name). rewrite <- Hkk.
      eapply scan_dropped; [done| |congruence].
      eapply tryOrderOf_covers; [|done]. by intros ? [= <-].
  - cbn [fast_path] in Hstep.
    apply try_track_None with (name := name). rewrite <- Hkk.
    eapply scan_dropped; [done| |done].
    by eapply tryOrderOf_covers.
Qed.

(** The notes dropped by a call are those whose iteration ended with
    [assigned = false]. *)
Lemma dropped_upto (tracks : list (list RawNote)) (m a : nat) :
  a ∈ (allocate (length (allNotesOf tracks)) (seq 0 m)
         (init_state (allNotesOf tracks)) []).2
  <-> (a < m)%nat /\
      (step (length (allNotesOf tracks)) a (stateBefore tracks a)).2 = false.
Proof.
  induction m as [|m IH].
  - simpl. split; [by intros ?%elem_of_nil|lia].
  - rewrite seq_S, allocate_app. simpl. fold (stateBefore tracks m).
    destruct (step _ m (stateBefore tracks m)) as [st1 assigned] eqn:Hstep.
    simpl. destruct assigned.
    + rewrite IH. split; [intros [? ?]; split; [lia|done]|].
      intros [Ha Hd]. split; [|done].
      destruct (decide (a = m)) as [->|]; [|lia].
      rewrite Hstep in Hd. done.
    + rewrite elem_of_app, list_elem_of_singleton, IH. split.
      * intros [[? ?]| ->]; [split; [lia|done]|].
        split; [lia|]. by rewrite Hstep.
      * intros [Ha Hd]. destruct (decide (a = m)) as [->|]; [by right|].
        left. split; [lia|done].
Qed.

(** X6. A note is dropped only when, at its turn, each of the three tracks
    holds a note that overlaps it. *)
Theorem dropped_only_when_all_busy (tracks : list (list RawNote)) (a : addr)
    (note : Note) (k : nat) :
  a ∈ droppedNotes tracks -> allNotesOf tracks !! a = Some note ->
  (k < 3)%nat ->
  exists ov, ov ∈ trackState (stateBefore tracks a) !!! k /\
    overlaps note (deref (heap (stateBefore tracks a)) ov) = true.
Proof.
  intros Hdrop Hnote Hk.
  apply dropped_upto in Hdrop as [Ha Hdrop].
  destruct (stateBefore_invariant tracks a) as (Hs & Hinv & _); [lia|].
  assert (heap (stateBefore tracks a) !! a = Some note) as Hi.
  { rewrite <- Hnote. by apply (inv_pending _ _ _ Hinv). }
  rewrite <- (deref_lookup _ _ _ Hi).
  destruct (step _ a _) as [st' assigned] eqn:Hstep. simpl in Hdrop. subst.
  eapply step_dropped_busy; [apply Hs|done|by apply slot_total].
Qed.

(** The last note of [crowded] is dropped; Chord holds then the note at
    address 1, which lasts from 0.5 to 2.5. *)
Lemma dropped_only_when_all_busy_witness :
  exists ov, ov ∈ trackState (stateBefore crowded 3) !!! 1%nat /\
    overlaps (mkNote 70 1 2 (1 # 2) (1 + 2) 0)
      (deref (heap (stateBefore crowded 3)) ov) = true.
Proof.
  apply (dropped_only_when_all_busy crowded 3 _ 1).
  - vm_compute. apply list_elem_of_here.
  - vm_compute. reflexivity.
  - lia.
Defined.

(** X7. A note whose origin is bound to a track joins that track, behind
    the notes it holds, exactly when none of them overlaps it; when one
    does, the array of that track is left as it is, and no truncation is
    tried there. *)
Theorem bound_note_and_its_track (n : nat) (a : addr) (st : State) (p : nat)
    (l : list addr) :
  origTrackToTarget st !! origTrack (deref (heap st) a) = Some p ->
  trackState st !! p = Some l ->
  trackState (step n a st).1 !! p
  = Some (match find_overlap (heap st) (deref (heap st) a) l with
          | None => l ++ [a]
          | Some _ => l
          end).
Proof.
  intros Haff Hl.
  destruct (find_overlap _ _ l) as [ov|] eqn:Hfind.
  - rewrite <- Hl. apply busy_affinity_track_untouched with (ov := ov); [done|].
    by rewrite (lookup_trackState _ _ _ Hl).
  - unfold step. rewrite Haff. cbn [fast_path].
    rewrite (lookup_trackState _ _ _ Hl), Hfind.
    cbn [fst trackState push_note]. by rewrite list_lookup_alter_eq, Hl.
Qed.

(** The second note of [alone] is bound to Main Theme, where the first
    one overlaps it; the second note of a line of two is bound to Main
    Theme too, and joins the first there. *)
Lemma bound_note_and_its_track_witness :
  trackState (step 2 1 (stateBefore alone 1)).1 !! 0%nat = Some [0%nat] /\
  let line := [[mkRawNote 60 0 1 (1 # 2); mkRawNote 62 1 1 (1 # 2)]] in
  trackState (step 2 1 (stateBefore line 1)).1 !! 0%nat
  = Some ([0%nat] ++ [1%nat]).
Proof.
  split.
  - apply (bound_note_and_its_track 2 1 (stateBefore alone 1) 0 [0%nat]);
      vm_compute; reflexivity.
  - intros line.
    apply (bound_note_and_its_track 2 1 (stateBefore line 1) 0 [0%nat]);
      vm_compute; reflexivity.
Defined.

(** ** Inputs without overlap *)

Lemma map_deref_seq (h : list Note) :
  map (deref h) (seq 0 (length h)) = h.
Proof.
  apply list_eq. intros i.
  change (map (deref h) (seq 0 (length h))) with (deref h <$> seq 0 (length h)).
  rewrite list_lookup_fmap.
  destruct (decide (i < length h)%nat) as [Hi|Hi].
  - rewrite lookup_seq_lt by done. simpl. symmetry. by apply lookup_deref.
  - rewrite lookup_seq_ge by lia. simpl. symmetry.
    apply lookup_ge_None. lia.
Qed.

Section Free.
Variable allNotes : list Note.
Hypothesis allNotes_sorted : time_sorted allNotes.
Hypothesis allNotes_free : pairwise (fun x y => overlaps x y = false) allNotes.

(** While the store is still [allNotes], no placed note overlaps the note
    at hand. *)
Lemma free_input_no_overlap (i : nat) (st : State) (k : nat) (l : list addr)
    (r : addr) :
  notes_inv allNotes i st -> heap st = allNotes ->
  (i < length allNotes)%nat ->
  trackState st !! k = Some l -> r ∈ l ->
  overlaps (deref (heap st) i) (deref (heap st) r) = false.
Proof.
  intros Hinv Hheap Hi Hl Hr.
  destruct (lookup_lt_is_Some_2 allNotes i Hi) as [y Hy].
  destruct (placed_before _ allNotes_sorted _ _ _ _ _ _ Hinv Hl Hr Hy)
    as [Hri _].
  assert (r < length allNotes)%nat as Hrn by lia.
  destruct (lookup_lt_is_Some_2 allNotes r Hrn) as [z Hz].
  rewrite Hheap, (deref_lookup _ _ _ Hy), (deref_lookup _ _ _ Hz).
  apply (allNotes_free i r); [lia|done..].
Qed.

Lemma free_input_step (i : nat) (st st' : State) (assigned : bool) :
  shape st -> notes_inv allNotes i st -> heap st = allNotes ->
  (i < length allNotes)%nat ->
  step (length allNotes) i st = (st', assigned) ->
  assigned = true /\ heap st' = allNotes /\
  concat (trackState st') ≡ₚ i :: concat (trackState st).
Proof.
  intros Hs Hinv Hheap Hi Hstep.
  assert (forall k ov, (k < 3)%nat -> ov ∈ trackState st !!! k ->
            overlaps (deref (heap st) i) (deref (heap st) ov) = true -> False)
    as Hfree.
  { intros k ov Hk Hov Htrue.
    assert (trackState st !! k = Some (trackState st !!! k)) as Hl.
    { apply list_lookup_lookup_total_lt. by rewrite (shape_tracks _ Hs). }
    rewrite (free_input_no_overlap i st k _ ov Hinv Hheap Hi Hl Hov) in Htrue.
    done. }
  destruct assigned.
  - split; [done|]. apply step_outcome in Hstep.
    destruct Hstep as (idx & name & Hp & Hslot).
    specialize (Hslot (shape_affinity _ Hs)).
    pose proof (slot_lt _ _ Hslot) as Hidx.
    destruct Hp as [Hfind | ov Hfind _ _ | ov Hfind _ _].
    + split; [done|]. cbn [trackState record_affinity push_note].
      apply concat_alter_snoc. by rewrite (shape_tracks _ Hs).
    + exfalso. apply find_overlap_Some in Hfind as [Hov Htrue].
      by eapply Hfree.
    + exfalso. apply find_overlap_Some in Hfind as [Hov Htrue].
      by eapply Hfree.
  - exfalso.
    destruct (step_dropped_busy _ _ _ _ 0 "Main Theme" (shape_affinity _ Hs)
                Hstep eq_refl) as (ov & Hov & Htrue).
    eapply (Hfree 0%nat); [lia|done..].
Qed.

Lemma free_input_allocate (m i : nat) (st st' : State)
    (dropped dropped' : list addr) :
  (i + m <= length allNotes)%nat ->
  shape st -> notes_inv allNotes i st -> heap st = allNotes ->
  allocate (length allNotes) (seq i m) st dropped = (st', dropped') ->
  heap st' = allNotes /\ dropped' = dropped /\
  concat (trackState st') ≡ₚ seq i m ++ concat (trackState st).
Proof.
  revert i st dropped.
  induction m as [|m IH]; intros i st dropped Him Hs Hinv Hheap; simpl.
  - by intros [= <- <-].
  - destruct (step _ _ _) as [st1 assigned] eqn:Hstep.
    assert (i < length allNotes)%nat as Hi by lia.
    destruct (free_input_step _ _ _ _ Hs Hinv Hheap Hi Hstep)
      as (-> & Hheap1 & Hperm).
    apply (step_invariant allNotes allNotes_sorted) in Hstep
      as (Hs1 & Hinv1 & _); [|lia|done..].
    intros Hrest.
    assert (S i + m <= length allNotes)%nat as Him' by lia.
    destruct (IH (S i) st1 dropped Him' Hs1 Hinv1 Hheap1 Hrest)
      as (? & ? & Hperm').
    split; [done|]. split; [done|].
    rewrite Hperm', Hperm. by rewrite Permutation_middle.
Qed.
End Free.

(** X8. An input in which no two notes overlap comes out whole: nothing is
    dropped, nothing is shortened, and the three returned tracks together
    hold the notes of the input as they were built. *)
Theorem input_without_overlap_is_kept (tracks : list (list RawNote)) :
  pairwise (fun x y => overlaps x y = false) (collectNotes tracks) ->
  droppedNotes tracks = [] /\
  outputTrack (processMidi tracks) 0 ++ outputTrack (processMidi tracks) 1
    ++ outputTrack (processMidi tracks) 2
  ≡ₚ collectNotes tracks.
Proof.
  intros Hfree.
  pose proof (StronglySorted_time_sorted _ (allNotesOf_StronglySorted tracks))
    as Hsorted.
  assert (pairwise (fun x y => overlaps x y = false) (allNotesOf tracks))
    as Hfree'.
  { eapply pairwise_Permutation; [|done].
    symmetry. apply allNotesOf_Permutation. }
  destruct (processMidi_invariant tracks) as (Hs & _ & _).
  unfold droppedNotes, processMidi, run in *.
  destruct (allocate _ _ _ _) as [st' dropped'] eqn:Hrun. simpl in *.
  assert (0 + length (allNotesOf tracks) <= length (allNotesOf tracks))%nat
    as Hle by (simpl; lia).
  destruct (free_input_allocate _ Hsorted Hfree' _ 0 _ _ _ _
              Hle (init_state_shape _)
              (init_state_notes_inv _ (allNotesOf_wf tracks)) eq_refl Hrun)
    as (Hheap & -> & Hperm).
  split; [done|].
  rewrite !outputTrack_finalize by (done || lia).
  rewrite <- !map_app, !sort_Permutation.
  pose proof (shape_tracks _ Hs) as Hlen.
  destruct (trackState st') as [|l0 [|l1 [|l2 [|l3 ts]]]]; simplify_eq/=.
  rewrite !app_nil_r in Hperm.
  change (map (deref (heap st')) (l0 ++ l1 ++ l2))
    with (deref (heap st') <$> (l0 ++ l1 ++ l2)).
  rewrite Hperm. rewrite <- allNotesOf_Permutation.
  rewrite Hheap at 1. change (deref (allNotesOf tracks) <$> ?l)
    with (map (deref (allNotesOf tracks)) l).
  by rewrite map_deref_seq.
Qed.

Lemma input_without_overlap_is_kept_witness :
  droppedNotes relay = [] /\
  outputTrack (processMidi relay) 0 ++ outputTrack (processMidi relay) 1
    ++ outputTrack (processMidi relay) 2
  ≡ₚ collectNotes relay.
Proof.
  apply (input_without_overlap_is_kept relay).
  intros [|[|[|i]]] [|[|[|j]]] x y Hij Hx Hy; simplify_eq/=;
    done || (vm_compute; reflexivity).
Defined.

(** ** Output notes and input notes, one to one *)

(** X9. The notes of the three returned tracks come from different notes
    of the input: they can be matched, each with its own position in the
    processing order, to the notes they are, possibly shortened.  No note
    is on two tracks, or twice on one. *)
Theorem output_one_to_one (tracks : list (list RawNote)) :
  exists refs : list addr,
    NoDup refs /\
    Forall2 (fun r x => exists y, allNotesOf tracks !! r = Some y /\ derives y x)
      refs
      (outputTrack (processMidi tracks) 0 ++ outputTrack (processMidi tracks) 1
         ++ outputTrack (processMidi tracks) 2).
Proof.
  destruct (stateBefore_invariant tracks (length (allNotesOf tracks)))
    as (Hs & Hinv & Htinv); [done|].
  rewrite stateBefore_end in Hs, Hinv, Htinv.
  set (st := (run (allNotesOf tracks)).1) in *.
  set (srt := JS.sort (fun x y => time (deref (heap st) x)
                                  - time (deref (heap st) y))).
  exists (srt (trackState st !!! 0%nat) ++ srt (trackState st !!! 1%nat)
          ++ srt (trackState st !!! 2%nat)).
  assert (srt (trackState st !!! 0%nat) ++ srt (trackState st !!! 1%nat)
          ++ srt (trackState st !!! 2%nat) ≡ₚ concat (trackState st)) as Hperm.
  { unfold srt. rewrite !sort_Permutation.
    pose proof (shape_tracks _ Hs) as Hlen.
    destruct (trackState st) as [|l0 [|l1 [|l2 [|l3 ts]]]]; simplify_eq/=.
    by rewrite app_nil_r. }
  split; [rewrite Hperm; apply (tinv_nodup _ _ Htinv)|].
  unfold processMidi. fold st.
  rewrite !outputTrack_finalize by (done || lia). fold srt.
  rewrite <- !map_app.
  change (map (deref (heap st)) ?l) with (deref (heap st) <$> l).
  apply Forall2_fmap_r, Forall_Forall2_diag, Forall_forall.
  intros r Hr. rewrite Hperm in Hr.
  apply elem_of_trackState in Hr as (k & l & Hl & Hr).
  destruct (inv_refs _ _ _ Hinv k l r Hl Hr) as (Hlt & _).
  pose proof Hlt as Hlt'. rewrite (inv_size _ _ _ Hinv) in Hlt'.
  destruct (lookup_lt_is_Some_2 _ r Hlt') as [y Hy].
  exists y. split; [done|].
  exact (tinv_prov _ _ Htinv r _ y (lookup_deref _ _ Hlt) Hy).
Qed.

(** ** The first note *)

Lemma idxByPitch_highest (allNotes : list Note) (note : Note) :
  highest_at_start allNotes note -> idxByPitch allNotes note = 0%nat.
Proof.
  intros [(n & Hn & Ht & Hm) Hle]. unfold idxByPitch.
  destruct (Math_max_pitches
              (List.filter (fun n => Qeq_bool (time n) (time note)) allNotes))
    as [[Hnil _]|(m & -> & (n' & Hn' & Hm') & Hmax)].
  - assert (n ∈ List.filter (fun n => Qeq_bool (time n) (time note)) allNotes)
      as Hin by by apply elem_of_notesAtTime.
    rewrite Hnil in Hin. by apply elem_of_nil in Hin.
  - apply elem_of_notesAtTime in Hn' as [Hn' Ht'].
    assert (midi note = m) as ->.
    { apply Z.le_antisymm.
      - rewrite <- Hm. apply Hmax. by apply elem_of_notesAtTime.
      - rewrite <- Hm'. by apply Hle. }
    simpl. by rewrite Z.eqb_refl.
Qed.

Lemma first_note_highest (y : Note) (rest : list Note) :
  StronglySorted note_le (y :: rest) -> highest_at_start (y :: rest) y.
Proof.
  intros [_ Hy]%StronglySorted_inv. rewrite Forall_forall in Hy. split.
  - exists y. split; [left|]. split; [reflexivity|done].
  - intros n [->|Hn]%elem_of_cons Ht; [lia|].
    destruct (Hy n Hn) as [Hlt|[_ Hle]]; [|done].
    rewrite Ht in Hlt. exfalso. by eapply Qlt_irrefl.
Qed.

(** The first iteration puts its note on Main Theme. *)
Lemma first_step (y : Note) (rest : list Note) :
  StronglySorted note_le (y :: rest) ->
  trackState (step (length (y :: rest)) 0 (init_state (y :: rest))).1 !! 0%nat
  = Some [0%nat].
Proof.
  intros Hsorted.
  rewrite (step_unbound _ _ _ y) by reflexivity.
  change (heap (init_state (y :: rest))) with (y :: rest).
  rewrite firstn_all. unfold tryOrderOf.
  rewrite (idxByPitch_highest _ _ (first_note_highest _ _ Hsorted)).
  cbn [negb Nat.eqb]. unfold TRACK_NAMES at 1. cbn [scan].
  change (JS.indexOf "Main Theme" TRACK_NAMES) with 0%nat.
  rewrite bool_decide_eq_false_2 by done.
  reflexivity.
Qed.

(** X10. The first note of the processing order, the highest of the notes
    that start first, opens Main Theme: it is the first note of the
    returned track, as it came or shortened. *)
Theorem first_note_opens_main_theme (tracks : list (list RawNote)) (y : Note) :
  allNotesOf tracks !! 0%nat = Some y ->
  exists x rest,
    outputTrack (processMidi tracks) 0 = x :: rest /\ derives y x.
Proof.
  intros Hy.
  destruct (stateBefore_invariant tracks (length (allNotesOf tracks)))
    as (Hs & Hinv & Htinv); [done|].
  assert (trackState (stateBefore tracks 1) !! 0%nat = Some [0%nat]) as H1.
  { unfold stateBefore. pose proof (allNotesOf_StronglySorted tracks) as Hsorted.
    destruct (allNotesOf tracks) as [|y' rest] eqn:Hall; [done|].
    cbn [seq allocate].
    pose proof (first_step y' rest Hsorted) as Hfirst.
    by destruct (step _ _ _). }
  assert (1 <= length (allNotesOf tracks))%nat as Hlen
    by (apply lookup_lt_Some in Hy; lia).
  destruct (allocate_grows (length (allNotesOf tracks))
              (seq 1 (length (allNotesOf tracks) - 1)) (stateBefore tracks 1)
              (allocate (length (allNotesOf tracks)) (seq 0 1)
                 (init_state (allNotesOf tracks)) []).2 0 _ H1) as [l' Hl'].
  rewrite <- stateBefore_add in Hl'.
  replace (1 + (length (allNotesOf tracks) - 1))%nat
    with (length (allNotesOf tracks)) in Hl' by lia.
  rewrite stateBefore_end in Hs, Hinv, Htinv, Hl'.
  set (st := (run (allNotesOf tracks)).1) in *.
  unfold processMidi. fold st.
  rewrite outputTrack_finalize by (done || lia).
  rewrite (lookup_trackState _ _ _ Hl').
  rewrite sort_ordered.
  2:{ eapply StronglySorted_mono; [|exact (tinv_ordered _ _ Htinv _ _ Hl')].
      intros r s H. simpl in *. lra. }
  simpl. eexists _, _. split; [done|].
  assert (0 < length (heap st))%nat as H0
    by (rewrite (inv_size _ _ _ Hinv); lia).
  exact (tinv_prov _ _ Htinv 0%nat _ y (lookup_deref _ _ H0) Hy).
Qed.

(** In [spanned] the note of pitch 72 that starts at 0 comes first. *)
Lemma first_note_opens_main_theme_witness :
  exists x rest,
    outputTrack (processMidi spanned) 0 = x :: rest /\
    derives (mkNote 72 0 2 (1 # 2) (0 + 2) 0) x.
Proof.
  apply (first_note_opens_main_theme spanned).
  vm_compute. reflexivity.
Defined.

(** ** No note at all *)

(** X11. An input without any note, whatever its number of tracks, gives
    three empty tracks, and drops nothing. *)
Theorem no_note_no_output (tracks : list (list RawNote)) :
  inputCount tracks = 0%nat -> result tracks = ([], [], [], []).
Proof.
  intros Hcount. rewrite <- length_allNotesOf in Hcount.
  apply length_zero_iff_nil in Hcount.
  unfold result, processMidi, droppedNotes. by rewrite Hcount.
Qed.

(** Two source tracks, none of which has a note. *)
Lemma no_note_no_output_witness : result [[]; []] = ([], [], [], []).
Proof. apply (no_note_no_output [[]; []]). reflexivity. Defined.

(** ** The affinity map and the tracks *)

Lemma origTrack_alter_shortened (d : Q) (ov r : addr) (h : list Note) :
  origTrack (deref (alter (shortened d) ov h) r) = origTrack (deref h r).
Proof.
  unfold deref. rewrite list_lookup_total_alter.
  case_decide as H; [|done]. by destruct H as [-> _].
Qed.

Lemma init_state_affinity_inv (allNotes : list Note) :
  affinity_inv (init_state allNotes).
Proof.
  split.
  - intros o p. unfold init_state; cbn [origTrackToTarget].
    by rewrite lookup_empty.
  - intros k l r Hk Hr. apply list_elem_of_lookup_2 in Hk.
    unfold init_state, TRACK_NAMES in Hk. simpl in Hk.
    rewrite !elem_of_cons, elem_of_nil in Hk.
    destruct Hk as [->|[->|[->|[]]]]; by apply elem_of_nil in Hr.
Qed.

(** A note that reaches a track [idx], the objects keeping their origin:
    the two agree as before. *)
Lemma push_affinity_inv (idx : nat) (x : addr) (o : nat) (st st' : State) :
  affinity_inv st ->
  (idx < length (trackState st))%nat ->
  trackState st' = alter (fun l => l ++ [x]) idx (trackState st) ->
  origTrackToTarget st' =
    match origTrackToTarget st !! o with
    | Some _ => origTrackToTarget st
    | None => <[o := idx]> (origTrackToTarget st)
    end ->
  (forall r, origTrack (deref (heap st') r) = origTrack (deref (heap st) r)) ->
  origTrack (deref (heap st) x) = o ->
  affinity_inv st'.
Proof.
  intros [Hsound Hcomplete] Hidx Hts Haff Horig Hx.
  assert (forall o' p, origTrackToTarget st !! o' = Some p ->
            origTrackToTarget st' !! o' = Some p) as Hmono.
  { intros o' p Ho'. rewrite Haff.
    destruct (origTrackToTarget st !! o) eqn:E; [done|].
    rewrite lookup_insert_ne; [done|]. intros <-. congruence. }
  assert (forall k l, trackState st !! k = Some l ->
            exists l', trackState st' !! k = Some l' /\ forall r, r ∈ l -> r ∈ l')
    as Hgrow.
  { intros k l Hl. rewrite Hts. destruct (decide (idx = k)) as [->|Hne].
    - exists (l ++ [x]). rewrite list_lookup_alter_eq, Hl. split; [done|].
      intros r Hr. apply elem_of_app. by left.
    - exists l. by rewrite list_lookup_alter_ne. }
  destruct (lookup_lt_is_Some_2 _ _ Hidx) as [lidx Hlidx].
  split.
  - intros o' p Ho'. rewrite Haff in Ho'.
    assert (origTrackToTarget st !! o' = Some p \/
            (o' = o /\ p = idx)) as [Hold|[-> ->]].
    { destruct (origTrackToTarget st !! o) eqn:E; [by left|].
      rewrite lookup_insert in Ho'. case_decide; [|by left].
      right. by simplify_eq. }
    + destruct (Hsound o' p Hold) as (l & r & Hl & Hr & Hro).
      destruct (Hgrow p l Hl) as (l' & Hl' & Hin).
      exists l', r. split; [done|]. split; [by apply Hin|].
      by rewrite Horig.
    + exists (lidx ++ [x]), x. rewrite Hts, list_lookup_alter_eq, Hlidx.
      split; [done|]. split; [apply elem_of_app; right; left|].
      by rewrite Horig.
  - intros k l' r. rewrite Hts. intros Hk Hr. rewrite Horig.
    apply lookup_alter_snoc in Hk as [[_ Hk]|[-> (l & Hk & ->)]].
    + destruct (Hcomplete k l' r Hk Hr) as [p Hp]. eauto.
    + apply elem_of_app in Hr as [Hr|Hr].
      * destruct (Hcomplete idx l r Hk Hr) as [p Hp]. eauto.
      * apply list_elem_of_singleton in Hr as ->. rewrite Hx, Haff.
        destruct (origTrackToTarget st !! o) eqn:E; [by rewrite E|].
        rewrite lookup_insert_eq. eauto.
Qed.

Lemma placed_affinity_inv (allNotes : list Note) (i idx : nat) (name : string)
    (st st' : State) :
  time_sorted allNotes ->
  shape st -> notes_inv allNotes i st -> affinity_inv st ->
  (i < length allNotes)%nat -> slot idx name ->
  placed idx name i st st' -> affinity_inv st'.
Proof.
  intros Hsorted Hshape Hinv Hainv Hi Hslot Hp.
  assert (idx < length (trackState st))%nat as Hidx
    by (rewrite (shape_tracks _ Hshape); by eapply slot_lt).
  destruct Hp as [Hfind | ov Hfind Hsb Hd | ov Hfind Hsp Hd].
  - eapply push_affinity_inv; [done|done|reflexivity|reflexivity|done|done].
  - exfalso. apply find_overlap_Some in Hfind as [Hov _].
    destruct (lookup_lt_is_Some_2 allNotes i Hi) as [y Hy].
    assert (heap st !! i = Some y) as Hhy
      by (rewrite <- Hy; by apply (inv_pending _ _ _ Hinv)).
    assert (trackState st !! idx = Some (trackState st !!! idx)) as Hl
      by by apply list_lookup_lookup_total_lt.
    destruct (placed_before _ Hsorted _ _ _ _ _ _ Hinv Hl Hov Hy) as [_ Hle].
    apply starts_before_true in Hsb as [Hsb _].
    rewrite (deref_lookup _ _ _ Hhy) in Hsb. lra.
  - eapply push_affinity_inv; [done|done|reflexivity|reflexivity| |].
    + intros r. apply origTrack_alter_shortened.
    + done.
Qed.

Lemma stateBefore_affinity_inv (tracks : list (list RawNote)) (i : nat) :
  (i <= length (allNotesOf tracks))%nat -> affinity_inv (stateBefore tracks i).
Proof.
  induction i as [|i IH]; intros Hi.
  - apply init_state_affinity_inv.
  - replace (S i) with (i + 1)%nat by lia. rewrite stateBefore_add.
    cbn [seq allocate].
    destruct (stateBefore_invariant tracks i) as (Hs & Hinv & _); [lia|].
    destruct (step _ i (stateBefore tracks i)) as [st1 assigned] eqn:Hstep.
    apply step_outcome in Hstep. destruct assigned; simpl in *.
    + destruct Hstep as (idx & name & Hp & Hslot).
      eapply placed_affinity_inv; [|done|done|apply IH; lia|lia| |done].
      * apply StronglySorted_time_sorted, allNotesOf_StronglySorted.
      * apply Hslot, Hs.
    + subst st1. apply IH. lia.
Qed.

(** X12. When a call ends, an origin is bound to a track exactly when one
    of its notes was placed: the returned track that an entry of the
    affinity map names holds a note of that origin, and the origin of every
    returned note has an entry. *)
Theorem affinity_and_tracks (tracks : list (list RawNote)) :
  let aff := origTrackToTarget (run (allNotesOf tracks)).1 in
  (forall o p, aff !! o = Some p ->
     exists x, x ∈ outputTrack (processMidi tracks) p /\ origTrack x = o) /\
  (forall k x, (k < 3)%nat -> x ∈ outputTrack (processMidi tracks) k ->
     is_Some (aff !! origTrack x)).
Proof.
  destruct (stateBefore_invariant tracks (length (allNotesOf tracks)))
    as (Hs & _ & _); [done|].
  pose proof (stateBefore_affinity_inv tracks (length (allNotesOf tracks))
                ltac:(done)) as [Hsound Hcomplete].
  rewrite stateBefore_end in Hs, Hsound, Hcomplete.
  set (st := (run (allNotesOf tracks)).1) in *.
  unfold processMidi. fold st. split.
  - intros o p Hop. destruct (Hsound o p Hop) as (l & r & Hl & Hr & Hro).
    pose proof (shape_affinity _ Hs _ _ Hop) as Hp.
    rewrite outputTrack_finalize by done.
    exists (deref (heap st) r). split; [|done].
    apply list_elem_of_fmap. exists r. split; [done|].
    by rewrite sort_Permutation, (lookup_trackState _ _ _ Hl).
  - intros k x Hk. rewrite outputTrack_finalize by done.
    intros (r & -> & Hr)%list_elem_of_fmap. rewrite sort_Permutation in Hr.
    apply (Hcomplete k (trackState st !!! k)); [|done].
    apply list_lookup_lookup_total_lt. by rewrite (shape_tracks _ Hs).
Qed.

(** In [spanned] the origin 1 is bound to Chord, where its note is; the
    note of origin 0 that is on Chord has its origin bound, to Main
    Theme. *)
Lemma affinity_and_tracks_witness :
  (exists x, x ∈ outputTrack (processMidi spanned) 1 /\ origTrack x = 1%nat) /\
  is_Some (origTrackToTarget (run (allNotesOf spanned)).1
             !! origTrack (mkNote 70 1 2 (1 # 2) (1 + 2) 0)).
Proof.
  destruct (affinity_and_tracks spanned) as [Hsound Hcomplete]. split.
  - apply (Hsound 1%nat 1%nat). vm_compute. reflexivity.
  - apply (Hcomplete 1%nat); [lia|]. vm_compute.
    apply list_elem_of_further, list_elem_of_here.
Defined.

(** ** What shortens a note *)

Lemma NoDup_concat_lookup {A} (ls : list (list A)) (k k' : nat) (l l' : list A)
    (x : A) :
  NoDup (concat ls) -> ls !! k = Some l -> ls !! k' = Some l' ->
  x ∈ l -> x ∈ l' -> k = k'.
Proof.
  revert k k'. induction ls as [|l0 ls IH]; intros k k' Hnd Hk Hk' Hx Hx'.
  - by rewrite lookup_nil in Hk.
  - simpl in Hnd. apply NoDup_app in Hnd as (_ & Hdisj & Hnd).
    assert (forall j lj, ls !! j = Some lj -> x ∈ lj -> x ∈ concat ls) as Hin.
    { intros j lj Hj Hxj. rewrite list_elem_of_In, in_concat. exists lj.
      rewrite <- !list_elem_of_In. split; [|done].
      by eapply list_elem_of_lookup_2. }
    destruct k as [|k], k' as [|k']; simplify_eq/=.
    + done.
    + exfalso. eapply Hdisj; [exact Hx|]. by eapply Hin.
    + exfalso. eapply Hdisj; [exact Hx'|]. by eapply Hin.
    + f_equal. by eapply IH.
Qed.

Lemma placed_cut_by_a_later_start (allNotes : list Note) (i idx : nat)
    (name : string) (st st' : State) :
  time_sorted allNotes ->
  shape st -> notes_inv allNotes i st -> tracks_inv allNotes st ->
  cut_by_a_later_start allNotes st ->
  (i < length allNotes)%nat -> slot idx name ->
  placed idx name i st st' -> cut_by_a_later_start allNotes st'.
Proof.
  intros Hsorted Hshape Hinv Htinv Hcut Hi Hslot Hp.
  destruct (lookup_lt_is_Some_2 allNotes i Hi) as [yi Hyi].
  assert (heap st !! i = Some yi) as Hhy
    by (rewrite <- Hyi; by apply (inv_pending _ _ _ Hinv)).
  pose proof (deref_lookup _ _ _ Hhy) as Hnote.
  assert (trackState st !! idx = Some (trackState st !!! idx)) as Hl.
  { apply list_lookup_lookup_total_lt. rewrite (shape_tracks _ Hshape).
    by eapply slot_lt. }
  destruct Hp as [Hfind | ov Hfind Hsb Hd | ov Hfind Hsp Hd].
  - intros k l' r y. cbn [heap trackState record_affinity push_note].
    intros Hk Hr Hy.
    apply lookup_alter_snoc in Hk as [[_ Hk]|[-> (l & Hk & ->)]];
      [by eapply Hcut|].
    apply elem_of_app in Hr as [Hr|Hr].
    + destruct (Hcut idx l r y Hk Hr Hy) as [?|(s & Hs & Hts)]; [by left|].
      right. exists s. split; [|done]. apply elem_of_app. by left.
    + apply list_elem_of_singleton in Hr as ->. left.
      rewrite Hnote. congruence.
  - exfalso. apply find_overlap_Some in Hfind as [Hov _].
    destruct (placed_before _ Hsorted _ _ _ _ _ _ Hinv Hl Hov Hyi) as [_ Hle].
    apply starts_before_true in Hsb as [Hsb _]. rewrite Hnote in Hsb. lra.
  - apply find_overlap_Some in Hfind as [Hov _].
    destruct (inv_refs _ _ _ Hinv _ _ _ Hl Hov) as (Hov1 & _).
    destruct (placed_before _ Hsorted _ _ _ _ _ _ Hinv Hl Hov Hyi) as [Hovi _].
    apply spans_past_true in Hsp as (Hsp1 & _ & Hsp3).
    pose proof (inv_wf _ _ _ Hinv ov _ (lookup_deref _ _ Hov1)) as Hwfov.
    set (d := time (deref (heap st) i) - time (deref (heap st) ov)) in *.
    assert (Htime : forall r,
      time (deref (alter (shortened d) ov (heap st)) r) = time (deref (heap st) r)).
    { intros r. destruct (decide (ov = r)) as [<-|Hner].
      - by rewrite deref_alter_eq.
      - by rewrite deref_alter_ne. }
    intros k l' r y. cbn [heap trackState record_affinity push_note shorten].
    intros Hk Hr Hy.
    assert (forall l, trackState st !! k = Some l -> r ∈ l ->
              (forall s, s ∈ l -> s ∈ l') ->
              (k = idx -> i ∈ l') ->
              duration (deref (alter (shortened d) ov (heap st)) r) = duration y \/
              exists s, s ∈ l' /\
                time (deref (alter (shortened d) ov (heap st)) r)
                < time (deref (alter (shortened d) ov (heap st)) s) /\
                time (deref (alter (shortened d) ov (heap st)) s)
                < time y + duration y)
      as Hold.
    { intros l Hkl Hrl Hsub Hnew. destruct (decide (r = ov)) as [->|Hner].
      - right. exists i.
        assert (k = idx) as Hkidx
          by (eapply NoDup_concat_lookup;
              [apply (tinv_nodup _ _ Htinv)|exact Hkl|exact Hl|done..]).
        split; [by apply Hnew|]. rewrite !Htime.
        destruct (tinv_prov _ _ Htinv ov _ y (lookup_deref _ _ Hov1) Hy)
          as (_ & Ht & _ & _ & Hdur & _).
        rewrite <- Ht. split; qarith.
      - rewrite (deref_alter_ne _ _ ov r) by done.
        destruct (Hcut k l r y Hkl Hrl Hy) as [?|(s & Hs & Hts)]; [by left|].
        right. exists s. split; [by apply Hsub|]. by rewrite !Htime. }
    apply lookup_alter_snoc in Hk as [[Hne Hk]|[-> (l & Hk & ->)]].
    + by apply (Hold l').
    + apply elem_of_app in Hr as [Hr|Hr].
      * apply (Hold l Hk Hr).
        -- intros s Hs. apply elem_of_app. by left.
        -- intros _. apply elem_of_app. right. left.
      * apply list_elem_of_singleton in Hr as ->. left.
        rewrite deref_alter_ne by lia. rewrite Hnote. congruence.
Qed.

Lemma stateBefore_cut_by_a_later_start (tracks : list (list RawNote)) (i : nat) :
  (i <= length (allNotesOf tracks))%nat ->
  cut_by_a_later_start (allNotesOf tracks) (stateBefore tracks i).
Proof.
  induction i as [|i IH]; intros Hi.
  - intros k l r y Hk Hr. apply list_elem_of_lookup_2 in Hk.
    unfold stateBefore, init_state, TRACK_NAMES in Hk. simpl in Hk.
    rewrite !elem_of_cons, elem_of_nil in Hk.
    destruct Hk as [->|[->|[->|[]]]]; by apply elem_of_nil in Hr.
  - replace (S i) with (i + 1)%nat by lia. rewrite stateBefore_add.
    cbn [seq allocate].
    destruct (stateBefore_invariant tracks i) as (Hs & Hinv & Htinv); [lia|].
    destruct (step _ i (stateBefore tracks i)) as [st1 assigned] eqn:Hstep.
    apply step_outcome in Hstep. destruct assigned; simpl in *.
    + destruct Hstep as (idx & name & Hp & Hslot).
      eapply placed_cut_by_a_later_start;
        [|done|done|done|apply IH; lia|lia| |done].
      * apply StronglySorted_time_sorted, allNotesOf_StronglySorted.
      * apply Hslot, Hs.
    + subst st1. apply IH. lia.
Qed.

(** X13. A returned note has the duration of the note of the input it
    comes from, unless another note of its track starts after it and before
    the end it came with: a note is only ever shortened for a note of its
    own track that starts inside it.  The comparisons are between starts
    and the end of the input note as given, so that the rounding of a
    shortened duration plays no part. *)
Theorem shortened_for_a_later_start (tracks : list (list RawNote))
    (name : string) (notes : list Note) (x : Note) :
  processMidi tracks !! name = Some notes -> x ∈ notes ->
  exists y, y ∈ collectNotes tracks /\ derives y x /\
    (duration x = duration y \/
     exists z, z ∈ notes /\ time x < time z /\ time z < time y + duration y).
Proof.
  intros Hout Hx.
  destruct (stateBefore_invariant tracks (length (allNotesOf tracks)))
    as (Hs & Hinv & Htinv); [done|].
  pose proof (stateBefore_cut_by_a_later_start tracks
                (length (allNotesOf tracks)) ltac:(done)) as Hcut.
  rewrite stateBefore_end in Hs, Hinv, Htinv, Hcut.
  set (st := (run (allNotesOf tracks)).1) in *.
  apply finalize_lookup in Hout as (k & l & Hk & Hl & ->); [|done].
  apply list_elem_of_fmap in Hx as (r & -> & Hr).
  rewrite sort_Permutation in Hr.
  destruct (inv_refs _ _ _ Hinv k l r Hl Hr) as (Hlt & _).
  pose proof Hlt as Hlt'. rewrite (inv_size _ _ _ Hinv) in Hlt'.
  destruct (lookup_lt_is_Some_2 _ r Hlt') as [y Hy].
  exists y. split.
  { rewrite <- allNotesOf_Permutation. by eapply list_elem_of_lookup_2. }
  split; [exact (tinv_prov _ _ Htinv r _ y (lookup_deref _ _ Hlt) Hy)|].
  destruct (Hcut k l r y Hl Hr Hy) as [?|(s & Hs' & Hts)]; [by left|].
  right. exists (deref (heap st) s). split; [|done].
  apply list_elem_of_fmap. exists s. split; [done|].
  by rewrite sort_Permutation.
Qed.

(** The note of pitch 60 of [spanned] came with 5 seconds and is returned
    on Chord with 1 second; the note of pitch 70 starts there at 1. *)
Lemma shortened_for_a_later_start_witness :
  let x := mkNote 60 0 (1 - 0) (1 # 2) (0 + (1 - 0)) 1 in
  exists y, y ∈ collectNotes spanned /\ derives y x /\
    (duration x = duration y \/
     exists z, z ∈ [x; mkNote 70 1 2 (1 # 2) (1 + 2) 0] /\
               time x < time z /\ time z < time y + duration y).
Proof.
  intros x.
  apply (shortened_for_a_later_start spanned "Chord").
  - vm_compute. reflexivity.
  - apply list_elem_of_here.
Defined.

(** ** Source lines in an input without overlap *)

Section FreeLines.
Variable allNotes : list Note.
Hypothesis allNotes_sorted : time_sorted allNotes.
Hypothesis allNotes_free : pairwise (fun x y => overlaps x y = false) allNotes.


End FreeLines.



(** * The turns of a call *)

(** Turn [i] is the body of the loop at address [i], on what the turns
    before it left. *)
Lemma stateBefore_S (tracks : list (list RawNote)) (i : nat) :
  stateBefore tracks (S i)
  = (step (length (allNotesOf tracks)) i (stateBefore tracks i)).1 /\
  droppedBefore tracks (S i)
  = (if (step (length (allNotesOf tracks)) i (stateBefore tracks i)).2
     then droppedBefore tracks i else droppedBefore tracks i ++ [i]).
Proof.
  unfold stateBefore, droppedBefore.
  replace (S i) with (i + 1)%nat by lia.
  rewrite seq_app, allocate_app. cbn [seq allocate Nat.add].
  destruct (allocate _ (seq 0 i) _ _) as [st dropped]. cbn [fst snd].
  by destruct (step _ i st) as [st1 []].
Qed.

(** What a placement does at turn [i] of a call: the array of the track
    gets the address [i], and no object changes but, possibly, one that this
    array holds. *)
Lemma placed_turn (tracks : list (list RawNote)) (i idx : nat) (name : string)
    (st' : State) :
  (i < length (allNotesOf tracks))%nat -> slot idx name ->
  placed idx name i (stateBefore tracks i) st' ->
  trackState st'
  = alter (fun l => l ++ [i]) idx (trackState (stateBefore tracks i)) /\
  (forall r, r ∉ trackState (stateBefore tracks i) !!! idx ->
     deref (heap st') r = deref (heap (stateBefore tracks i)) r).
Proof.
  intros Hi Hslot Hp.
  destruct (stateBefore_invariant tracks i) as (Hs & Hinv & _); [lia|].
  pose proof (StronglySorted_time_sorted _ (allNotesOf_StronglySorted tracks))
    as Hsorted.
  set (st := stateBefore tracks i) in *.
  destruct (lookup_lt_is_Some_2 _ i Hi) as [y Hy].
  assert (heap st !! i = Some y) as Hhy
    by (rewrite <- Hy; by apply (inv_pending _ _ _ Hinv)).
  pose proof (deref_lookup _ _ _ Hhy) as Hnote.
  assert (trackState st !! idx = Some (trackState st !!! idx)) as Hl.
  { apply list_lookup_lookup_total_lt. rewrite (shape_tracks _ Hs).
    by eapply slot_lt. }
  destruct Hp as [Hfind | ov Hfind Hsb Hd | ov Hfind Hsp Hd].
  - by split.
  - exfalso. apply find_overlap_Some in Hfind as [Hov _].
    destruct (placed_before _ Hsorted _ _ _ _ _ _ Hinv Hl Hov Hy) as [_ Hle].
    apply starts_before_true in Hsb as [Hsb _]. rewrite Hnote in Hsb. lra.
  - apply find_overlap_Some in Hfind as [Hov _]. split; [done|].
    intros r Hr. cbn [heap record_affinity push_note shorten].
    apply deref_alter_ne. intros ->. by apply Hr.
Qed.

(** After [i] turns the first [i] notes of the order, and no other, are
    each on a track or dropped. *)
Lemma handled_upto (tracks : list (list RawNote)) (i : nat) :
  (i <= length (allNotesOf tracks))%nat ->
  concat (trackState (stateBefore tracks i)) ++ droppedBefore tracks i
  ≡ₚ seq 0 i.
Proof.
  induction i as [|i IH]; intros Hi; [done|].
  destruct (stateBefore_S tracks i) as [-> ->].
  destruct (stateBefore_invariant tracks i) as (Hs & _ & _); [lia|].
  specialize (IH ltac:(lia)).
  destruct (step _ i (stateBefore tracks i)) as [st1 assigned] eqn:Hstep.
  apply step_outcome in Hstep. rewrite seq_S. cbn [fst snd Nat.add].
  destruct assigned; simpl in Hstep.
  - destruct Hstep as (idx & name & Hp & Hslot).
    specialize (Hslot (shape_affinity _ Hs)).
    destruct (placed_turn tracks i idx name st1 ltac:(lia) Hslot Hp) as [-> _].
    rewrite concat_alter_snoc
      by (rewrite (shape_tracks _ Hs); by eapply slot_lt).
    simpl. rewrite IH. apply Permutation_cons_append.
  - subst st1. by rewrite app_assoc, IH.
Qed.

(** C7. The notes are processed in one order, [allNotes]: a rearrangement
    of the notes of all source tracks in which every note starts no later
    than the notes after it and, when two start together, the earlier one
    is at least as high.  The allocator takes them in this order, one a
    turn: turn [i] finds the [i]-th note of the order untouched at address
    [i], is the body of the loop run on that address in the state the
    turns before it left, and leaves the first [i + 1] notes of the order,
    and no other, each on a track or dropped; the call returns what the
    last turn leaves. *)
Theorem processing_order (tracks : list (list RawNote)) :
  allNotesOf tracks ≡ₚ collectNotes tracks /\
  StronglySorted note_le (allNotesOf tracks) /\
  run (allNotesOf tracks)
  = (stateBefore tracks (length (allNotesOf tracks)),
     droppedBefore tracks (length (allNotesOf tracks))) /\
  stateBefore tracks 0 = init_state (allNotesOf tracks) /\
  (forall i x, allNotesOf tracks !! i = Some x ->
     heap (stateBefore tracks i) !! i = Some x /\
     stateBefore tracks (S i)
     = (step (length (allNotesOf tracks)) i (stateBefore tracks i)).1 /\
     droppedBefore tracks (S i)
     = (if (step (length (allNotesOf tracks)) i (stateBefore tracks i)).2
        then droppedBefore tracks i else droppedBefore tracks i ++ [i]) /\
     concat (trackState (stateBefore tracks (S i))) ++ droppedBefore tracks (S i)
     ≡ₚ seq 0 (S i)).
Proof.
  split; [apply allNotesOf_Permutation|].
  split; [apply allNotesOf_StronglySorted|].
  split.
  { unfold run, stateBefore, droppedBefore. by destruct (allocate _ _ _ _). }
  split; [done|].
  intros i x Hx. pose proof (lookup_lt_Some _ _ _ Hx) as Hi.
  split.
  { rewrite <- Hx. apply allocate_pending; [|apply allNotesOf_wf|done].
    apply StronglySorted_time_sorted, allNotesOf_StronglySorted. }
  split; [apply stateBefore_S|]. split; [apply stateBefore_S|].
  apply handled_upto. lia.
Qed.

(** Of two notes that start together the higher one is the first of the
    order: the first turn finds it at address 0 and puts it on a track, and
    the second turn is on what the first one left. *)
Lemma processing_order_witness :
  let tracks := [[mkRawNote 60 0 1 (1 # 2); mkRawNote 72 0 1 (1 # 2)]] in
  heap (stateBefore tracks 0) !! 0%nat = Some (mkNote 72 0 1 (1 # 2) (0 + 1) 0) /\
  stateBefore tracks 1
  = (step (length (allNotesOf tracks)) 0 (stateBefore tracks 0)).1 /\
  droppedBefore tracks 1
  = (if (step (length (allNotesOf tracks)) 0 (stateBefore tracks 0)).2
     then droppedBefore tracks 0 else droppedBefore tracks 0 ++ [0%nat]) /\
  concat (trackState (stateBefore tracks 1)) ++ droppedBefore tracks 1
  ≡ₚ seq 0 1.
Proof.
  intros tracks.
  apply (proj2 (proj2 (proj2 (proj2 (processing_order tracks)))) 0%nat).
  vm_compute. reflexivity.
Defined.

(** * A bound note whose track is busy *)




(** * The program around the allocator *)

Lemma processMidi_lookup (tracks : list (list RawNote)) (k : nat) (name : string) :
  slot k name ->
  processMidi tracks !! name = Some (outputTrack (processMidi tracks) k).
Proof.
  intros Hk. destruct (processMidi_invariant tracks) as (Hs & _ & _).
  assert (is_Some (processMidi tracks !! name)) as [notes Hn].
  { unfold processMidi, finalize. rewrite lookup_fmap, fmap_is_Some.
    apply shape_lookup; [done|]. by eapply list_elem_of_lookup_2. }
  unfold outputTrack. rewrite (list_lookup_total_correct _ _ _ Hk).
  by rewrite Hn.
Qed.

Lemma forEach_present_default {A B} (f : A -> B) (x : option (list A)) :
  forEach_present f x = map f (default [] x).
Proof. by destruct x as [[|a l]|]. Qed.

Lemma omap_map_None {A B C} (g : B -> option C) (f : A -> B) (l : list A) :
  (forall a, g (f a) = None) -> omap g (map f l) = [].
Proof.
  intros H. induction l as [|a l IH]; [done|]. simpl. rewrite H. exact IH.
Qed.

Lemma omap_map_Some {A B C} (g : B -> option C) (f : A -> B) (h : A -> C)
    (l : list A) :
  (forall a, g (f a) = Some (h a)) -> omap g (map f l) = map h l.
Proof.
  intros H. induction l as [|a l IH]; [done|]. simpl. rewrite H.
  f_equal. exact IH.
Qed.

Section Requests.
Context {V : Type}.
Implicit Types (w : World V) (this : MidiConverter V) (calls : list (Call V)).

Lemma notesAdded_app calls calls' :
  notesAdded (calls ++ calls') = notesAdded calls ++ notesAdded calls'.
Proof. apply omap_app. Qed.

Lemma tracksNamed_app calls calls' :
  tracksNamed (calls ++ calls') = tracksNamed calls ++ tracksNamed calls'.
Proof. apply omap_app. Qed.

Lemma filesWritten_app calls calls' :
  filesWritten (calls ++ calls') = filesWritten calls ++ filesWritten calls'.
Proof. apply omap_app. Qed.

Lemma copyHeader_quiet this :
  notesAdded (copyHeader this) = [] /\ tracksNamed (copyHeader this) = [] /\
  filesWritten (copyHeader this) = [].
Proof.
  unfold copyHeader. destruct (lastLoadedMidi this) as [midi|]; [|done].
  rewrite !forEach_present_default.
  rewrite !notesAdded_app, !tracksNamed_app, !filesWritten_app.
  unfold notesAdded, tracksNamed, filesWritten.
  by rewrite !omap_map_None.
Qed.

Lemma trackCalls_notes (name : string) (notes : list Note) :
  notesAdded (V := V) (trackCalls name notes) = map noteArgs notes /\
  tracksNamed (V := V) (trackCalls name notes) = [name] /\
  filesWritten (V := V) (trackCalls name notes) = [].
Proof.
  unfold trackCalls, notesAdded, tracksNamed, filesWritten. simpl.
  rewrite (omap_map_Some _ addNote noteArgs) by done.
  by rewrite !omap_map_None.
Qed.

Lemma saveTracks_missing (names : list string)
    (trackMap : gmap string (list Note)) (name : string) :
  name ∈ names -> trackMap !! name = None ->
  (saveTracks (V := V) names trackMap).2 = Some TypeError /\
  filesWritten (saveTracks (V := V) names trackMap).1 = [].
Proof.
  intros Hin Hnone. induction names as [|n names IH]; [by apply elem_of_nil in Hin|].
  cbn [saveTracks]. destruct (trackMap !! n) as [notes|] eqn:Hn; [|done].
  assert (name ∈ names) as Hin'.
  { apply elem_of_cons in Hin as [->|?]; [congruence|done]. }
  destruct (IH Hin') as [Herr Hw].
  destruct (saveTracks names trackMap) as [calls err]. cbn [fst snd] in *.
  split; [done|].
  rewrite filesWritten_app, Hw.
  by destruct (trackCalls_notes n notes) as (_ & _ & ->).
Qed.

Lemma saveOutput_processMidi w this (tracks : list (list RawNote)) :
  saveOutput w this (processMidi tracks)
  = (NewMidi :: SetTicksPerBeat (this_ticksPerBeat this) :: copyHeader this
       ++ trackCalls "Main Theme" (outputTrack (processMidi tracks) 0)
       ++ trackCalls "Chord" (outputTrack (processMidi tracks) 1)
       ++ trackCalls "Base" (outputTrack (processMidi tracks) 2)
       ++ [WriteFile (output (options this))],
     if writeFile w (output (options this)) then None else Some WriteError).
Proof.
  unfold saveOutput. cbn [saveTracks].
  rewrite (processMidi_lookup tracks 0 "Main Theme") by reflexivity.
  rewrite (processMidi_lookup tracks 1 "Chord") by reflexivity.
  rewrite (processMidi_lookup tracks 2 "Base") by reflexivity.
  cbn [app]. by rewrite app_nil_r, <- !app_assoc.
Qed.

(** X15. Saving what [processMidi] returned never fails on a missing
    track: the requests are the header of the converter, then Main Theme,
    Chord and Base in this order, each added, named and filled with its
    notes, then one write of the output path; only this write can fail. *)
Theorem save_after_process w this (tracks : list (list RawNote)) :
  saveOutput w this (processMidi tracks)
  = (NewMidi :: SetTicksPerBeat (this_ticksPerBeat this) :: copyHeader this
       ++ trackCalls "Main Theme" (outputTrack (processMidi tracks) 0)
       ++ trackCalls "Chord" (outputTrack (processMidi tracks) 1)
       ++ trackCalls "Base" (outputTrack (processMidi tracks) 2)
       ++ [WriteFile (output (options this))],
     if writeFile w (output (options this)) then None else Some WriteError).
Proof. apply saveOutput_processMidi. Qed.

(** X16. Saving a map that lacks one of the three names ends in a
    TypeError, and no file is written. *)
Theorem save_missing_track w this (trackMap : gmap string (list Note))
    (name : string) :
  name ∈ ["Main Theme"; "Chord"; "Base"] -> trackMap !! name = None ->
  (saveOutput w this trackMap).2 = Some TypeError /\
  filesWritten (saveOutput w this trackMap).1 = [].
Proof.
  intros Hin Hnone. unfold saveOutput.
  destruct (saveTracks_missing _ _ _ Hin Hnone) as [Herr Hw].
  destruct (saveTracks _ trackMap) as [calls err]. cbn [fst snd] in *.
  subst err. cbn [fst snd]. split; [done|].
  rewrite filesWritten_app, Hw, app_nil_r.
  by destruct (copyHeader_quiet this) as (_ & _ & Hq).
Qed.

Lemma run_converter_loaded w (opts : Options) (midi : Midi V) :
  validateInput w opts = None -> readMidi w (input opts) = Some midi ->
  run_converter w opts
  = (let this' :=
       {| this_ticksPerBeat :=
            or_else (ticksPerBeat (header midi)) DEFAULT_TICKS_PER_BEAT;
          lastLoadedMidi := Some midi;
          options := opts |} in
     let calls :=
       NewMidi :: SetTicksPerBeat (this_ticksPerBeat this') :: copyHeader this'
         ++ trackCalls "Main Theme" (outputTrack (processMidi (tracks midi)) 0)
         ++ trackCalls "Chord" (outputTrack (processMidi (tracks midi)) 1)
         ++ trackCalls "Base" (outputTrack (processMidi (tracks midi)) 2)
         ++ [WriteFile (output opts)] in
     if writeFile w (output opts) then Success calls
     else Exit1 calls WriteError).
Proof.
  intros Hv Hr. unfold run_converter, loadMidiFile. rewrite Hv, Hr.
  cbn [new_converter options]. rewrite saveOutput_processMidi.
  cbn [options this_ticksPerBeat].
  by destruct (writeFile w (output opts)).
Qed.

(** X17. A run on a file that passes validation and parses asks for three
    tracks, Main Theme, Chord and Base, adds to them the notes
    [processMidi] returned, in the order of the tracks, writes the output
    path once, and ends in success or in the error of this write; the notes
    added and the notes dropped are together as many as the file has. *)
Theorem run_saves_the_allocation w (opts : Options) (midi : Midi V) :
  validateInput w opts = None -> readMidi w (input opts) = Some midi ->
  let calls := calls_of (run_converter w opts) in
  let out := processMidi (tracks midi) in
  (run_converter w opts = Success calls \/
   run_converter w opts = Exit1 calls WriteError) /\
  tracksNamed calls = ["Main Theme"; "Chord"; "Base"] /\
  notesAdded calls
    = map noteArgs (outputTrack out 0 ++ outputTrack out 1 ++ outputTrack out 2) /\
  filesWritten calls = [output opts] /\
  (length (notesAdded calls) + length (droppedNotes (tracks midi))
   = inputCount (tracks midi))%nat.
Proof.
  intros Hv Hr calls out.
  assert (exists r, run_converter w opts = r /\ calls = calls_of r) as (r & Hrun & Hc)
    by by eexists.
  rewrite Hrun. pose proof Hrun as Hrun'.
  rewrite (run_converter_loaded _ _ _ Hv Hr) in Hrun'. cbv zeta in Hrun'.
  cbn [this_ticksPerBeat] in Hrun'.
  set (this' := mkMidiConverter _ (Some midi) opts) in Hrun'.
  fold out in Hrun'.
  set (body := NewMidi :: _) in Hrun'.
  assert (calls = body) as Hcalls.
  { rewrite Hc, <- Hrun'. by destruct (writeFile w (output opts)). }
  split.
  { rewrite <- Hrun', Hcalls. destruct (writeFile w (output opts)); auto. }
  assert (body = [NewMidi; SetTicksPerBeat
                    (or_else (ticksPerBeat (header midi)) DEFAULT_TICKS_PER_BEAT)]
                 ++ copyHeader this'
                 ++ trackCalls "Main Theme" (outputTrack out 0)
                 ++ trackCalls "Chord" (outputTrack out 1)
                 ++ trackCalls "Base" (outputTrack out 2)
                 ++ [WriteFile (output opts)]) as Hbody by done.
  destruct (copyHeader_quiet this') as (Hn & Ht & Hw).
  destruct (trackCalls_notes "Main Theme" (outputTrack out 0)) as (Hn0 & Ht0 & Hw0).
  destruct (trackCalls_notes "Chord" (outputTrack out 1)) as (Hn1 & Ht1 & Hw1).
  destruct (trackCalls_notes "Base" (outputTrack out 2)) as (Hn2 & Ht2 & Hw2).
  assert (notesAdded calls
          = map noteArgs (outputTrack out 0 ++ outputTrack out 1 ++ outputTrack out 2))
    as Hnotes.
  { rewrite Hcalls, Hbody, !notesAdded_app, Hn, Hn0, Hn1, Hn2.
    simpl. by rewrite app_nil_r, !map_app. }
  split; [|split; [done|split]].
  - rewrite Hcalls, Hbody, !tracksNamed_app, Ht, Ht0, Ht1, Ht2. done.
  - rewrite Hcalls, Hbody, !filesWritten_app, Hw, Hw0, Hw1, Hw2. done.
  - rewrite Hnotes, length_map, !length_app.
    destruct (processMidi_invariant (tracks midi)) as (Hs & _ & Hcount).
    pose proof (totalNotes_finalize _ Hs) as Htot.
    unfold totalNotes in Htot. fold (processMidi (tracks midi)) in Htot.
    fold out in Htot. rewrite length_allNotesOf in Hcount.
    lia.
Qed.

(** X18. How a run ends.  The promise is rejected exactly when validation
    fails, and nothing is read then.  [handleError] is reached with a read
    or parse error before any request, or with the error of the final
    write; it never sees a validation error or a TypeError. *)
Theorem run_endings w (opts : Options) :
  match run_converter w opts with
  | Rejected err => validateInput w opts = Some err
  | Exit1 calls err =>
      validateInput w opts = None /\
      ((err = LoadError /\ calls = [] /\ readMidi w (input opts) = None) \/
       (err = WriteError /\ is_Some (readMidi w (input opts)) /\
        writeFile w (output opts) = false /\
        filesWritten calls = [output opts]))
  | Success calls =>
      validateInput w opts = None /\ is_Some (readMidi w (input opts)) /\
      writeFile w (output opts) = true
  end.
Proof.
  destruct (validateInput w opts) as [err|] eqn:Hv.
  { unfold run_converter. by rewrite Hv. }
  destruct (readMidi w (input opts)) as [midi|] eqn:Hr.
  - rewrite (run_converter_loaded _ _ _ Hv Hr). cbv zeta.
    destruct (writeFile w (output opts)) eqn:Hw; [done|].
    split; [done|]. right. split; [done|]. split; [done|]. split; [done|].
    set (this' := mkMidiConverter _ (Some midi) opts).
    change (NewMidi :: SetTicksPerBeat (this_ticksPerBeat this')
              :: copyHeader this' ++ ?rest)
      with ([NewMidi; SetTicksPerBeat (this_ticksPerBeat this')]
              ++ copyHeader this' ++ rest).
    rewrite !filesWritten_app.
    destruct (copyHeader_quiet this') as (_ & _ & ->).
    destruct (trackCalls_notes "Main Theme"
                (outputTrack (processMidi (tracks midi)) 0)) as (_ & _ & ->).
    destruct (trackCalls_notes "Chord"
                (outputTrack (processMidi (tracks midi)) 1)) as (_ & _ & ->).
    destruct (trackCalls_notes "Base"
                (outputTrack (processMidi (tracks midi)) 2)) as (_ & _ & ->).
    done.
  - unfold run_converter, loadMidiFile. rewrite Hv, Hr. auto.
Qed.

Lemma or_else_truthy (v : JS.value) :
  truthy (or_else v DEFAULT_TICKS_PER_BEAT) = true.
Proof. unfold or_else. by destruct (truthy v) eqn:Hv. Qed.

(** X19. What a run takes from the header of its input.  The requests
    start with the resolution, which is the file's when that is a number
    other than 0 and NaN, and 480 otherwise; then come the tempo, time
    signature and key signature events of the file, each kind in the order
    of the file, an absent list counting as empty; then the first track. *)
Theorem run_copies_the_header w (opts : Options) (midi : Midi V) :
  validateInput w opts = None -> readMidi w (input opts) = Some midi ->
  let h := header midi in
  let tpb := if truthy (ticksPerBeat h) then ticksPerBeat h
             else JS.Num (JS.Fin 480) in
  truthy tpb = true /\
  exists rest,
    calls_of (run_converter w opts)
    = [NewMidi; SetTicksPerBeat tpb]
      ++ map (fun e => SetTempo (bpm e) (tick e)) (default [] (tempos h))
      ++ map (fun e => PushTimeSignature (ts_ticks e) (timeSignature e))
           (default [] (timeSignatures h))
      ++ map (fun e => PushKeySignature (ks_ticks e) (key e))
           (default [] (keySignatures h))
      ++ AddTrack :: SetName "Main Theme" :: rest /\
    Forall (fun c => match c with
                     | AddTrack | SetName _ | AddNote _ _ _ _ | WriteFile _ => True
                     | _ => False
                     end) rest.
Proof.
  intros Hv Hr h tpb. split; [apply or_else_truthy|].
  rewrite (run_converter_loaded _ _ _ Hv Hr). cbv zeta.
  eexists. split.
  - destruct (writeFile w (output opts)); cbn [calls_of];
      unfold copyHeader; cbn [lastLoadedMidi this_ticksPerBeat];
      rewrite !forEach_present_default;
      unfold trackCalls at 1; cbn [app]; rewrite <- !app_assoc; reflexivity.
  - rewrite !Forall_app. unfold trackCalls.
    rewrite !Forall_cons, !Forall_fmap. 
    repeat split; try done; by apply Forall_true.
Qed.

End Requests.

(** A map without Chord. *)
Lemma save_missing_track_witness :
  (saveOutput one_file (new_converter (mkOptions "in.mid" "out.mid" false))
     {["Main Theme" := []; "Base" := []]}).2 = Some TypeError /\
  filesWritten
    (saveOutput one_file (new_converter (mkOptions "in.mid" "out.mid" false))
       {["Main Theme" := []; "Base" := []]}).1 = [].
Proof.
  apply (save_missing_track one_file _ _ "Chord").
  - apply list_elem_of_further, list_elem_of_here.
  - vm_compute. reflexivity.
Defined.

(** The run on [one_file] from [in.mid] to [out.mid]. *)
Lemma run_saves_the_allocation_witness :
  let opts := mkOptions "in.mid" "out.mid" true in
  let calls := calls_of (run_converter one_file opts) in
  let out := processMidi relay in
  (run_converter one_file opts = Success calls \/
   run_converter one_file opts = Exit1 calls WriteError) /\
  tracksNamed calls = ["Main Theme"; "Chord"; "Base"] /\
  notesAdded calls
    = map noteArgs (outputTrack out 0 ++ outputTrack out 1 ++ outputTrack out 2) /\
  filesWritten calls = ["out.mid"] /\
  (length (notesAdded calls) + length (droppedNotes relay) = inputCount relay)%nat.
Proof.
  apply (run_saves_the_allocation one_file (mkOptions "in.mid" "out.mid" true)
           in_mid).
  - vm_compute. reflexivity.
  - vm_compute. reflexivity.
Defined.

Lemma run_copies_the_header_witness :
  let opts := mkOptions "in.mid" "out.mid" false in
  truthy (JS.Num (JS.Fin 96)) = true /\
  exists rest,
    calls_of (run_converter one_file opts)
    = [NewMidi; SetTicksPerBeat (JS.Num (JS.Fin 96))]
      ++ [SetTempo 120%Z 0%Z] ++ [] ++ []
      ++ AddTrack :: SetName "Main Theme" :: rest /\
    Forall (fun c => match c with
                     | AddTrack | SetName _ | AddNote _ _ _ _ | WriteFile _ => True
                     | _ => False
                     end) rest.
Proof.
  apply (run_copies_the_header one_file (mkOptions "in.mid" "out.mid" false)
           in_mid).
  - vm_compute. reflexivity.
  - vm_compute. reflexivity.
Defined.

(** ** The check of the input path *)

Lemma substring_all (s : string) : String.substring 0 (String.length s) s = s.
Proof. induction s as [|c s IH]; [done|]. simpl. by rewrite IH. Qed.

Lemma substring_append (pre suffix : string) :
  String.substring (String.length pre) (String.length suffix)
    (String.append pre suffix) = suffix.
Proof. induction pre as [|c pre IH]; [apply substring_all|exact IH]. Qed.

Lemma length_append (s t : string) :
  String.length (String.append s t) = (String.length s + String.length t)%nat.
Proof. induction s as [|c s IH]; [done|]. simpl. by rewrite IH. Qed.

Lemma append_substring (s : string) (k : nat) :
  (k <= String.length s)%nat ->
  s = String.append (String.substring 0 k s)
        (String.substring k (String.length s - k) s).
Proof.
  revert k. induction s as [|c s IH]; intros [|k] Hk; simpl in *; try lia.
  - done.
  - by rewrite substring_all.
  - change (String c s
            = String c (String.append (String.substring 0 k s)
                          (String.substring k (String.length s - k) s))).
    f_equal. apply IH. lia.
Qed.

Lemma endsWith_spec (s suffix : string) :
  endsWith s suffix = true <-> exists stem, s = String.append stem suffix.
Proof.
  unfold endsWith. rewrite andb_true_iff, Nat.leb_le, String.eqb_eq. split.
  - intros [Hle Hsub].
    exists (String.substring 0 (String.length s - String.length suffix) s).
    pose proof (append_substring s (String.length s - String.length suffix)
                  ltac:(lia)) as Hs.
    replace (String.length s - (String.length s - String.length suffix))%nat
      with (String.length suffix) in Hs by lia.
    by rewrite Hsub in Hs.
  - intros [stem ->]. rewrite length_append. split; [lia|].
    replace (String.length stem + String.length suffix - String.length suffix)%nat
      with (String.length stem) by lia.
    apply substring_append.
Qed.

(** X20. The input path passes the check when it ends in [.mid] or in
    [.midi], in lower case, and the file can be accessed.  A path with
    another ending is refused for its ending whether or not the file can be
    accessed; a path with a good ending is refused when it cannot be. *)
Theorem validation_cases {V : Type} (w : World V) (opts : Options) :
  match validateInput w opts with
  | None => named_midi (input opts) /\ access w (input opts) = true
  | Some BadExtension => ~ named_midi (input opts)
  | Some (NoAccess path) =>
      named_midi (input opts) /\ access w (input opts) = false /\
      path = input opts
  | Some _ => False
  end.
Proof.
  assert (named_midi (input opts)
          <-> endsWith (input opts) ".mid" = true
              \/ endsWith (input opts) ".midi" = true) as Hnamed.
  { unfold named_midi. rewrite !endsWith_spec. split.
    - intros [stem [H|H]]; [left|right]; by exists stem.
    - intros [[stem H]|[stem H]]; exists stem; auto. }
  unfold validateInput.
  destruct (endsWith (input opts) ".mid") eqn:H1;
    destruct (endsWith (input opts) ".midi") eqn:H2; cbn [negb andb];
    try (destruct (access w (input opts)) eqn:Ha;
         repeat split; try done; apply Hnamed; auto).
  rewrite Hnamed. by intros [?|?].
Qed.
